(** * gossdb: the SSDB client driver and its shard router

    A shallow embedding of [ssdb.go] (the single-connection engine with its
    wire codec) and of the cluster file (SHA-1 key placement and the bulk
    fan-out operations), followed by the properties of the specification
    that were checked against it.

    Conventions.
    - A Go [string] and a Go [[]byte] are both a [list byte].
    - A Go [int] is the 64-bit two's-complement integer of the usual
      targets, held in [Z]; every place where wrap-around can show is
      written with [wrap_int].
    - A nilable Go value ([error], [[]string], [*KVPair]) is an [option].
    - The network is a script of replies ([Net]); a call that never
      returns is the outcome [Blocked], a run-time panic is [Panicked]. *)

From Stdlib Require Import ZArith List Lia Bool.
From Stdlib Require Import Strings.String Strings.Byte Strings.Ascii.
From Stdlib Require Import Init.Decimal Floats.SpecFloat.
From Stdlib Require DecimalPos.
From stdpp Require Import base list gmap.
Import ListNotations.

#[local] Open Scope Z_scope.

(* ------------------------------------------------------------------ *)
(** ** Bytes *)

Abbreviation bytes := (list byte).

#[global] Instance byte_eq_dec : EqDecision byte := Byte.byte_eq_dec.

Definition LF : byte := x0a.
Definition CR : byte := x0d.

(** Literals: Rocq strings have no escapes, so [lit] reads the two
    characters backslash-n as a line feed and backslash-r as a carriage
    return; every other character stands for itself. *)
Fixpoint unescape (l : bytes) : bytes :=
  match l with
  | x5c :: x6e :: r => LF :: unescape r
  | x5c :: x72 :: r => CR :: unescape r
  | b :: r => b :: unescape r
  | [] => []
  end.

Definition lit (s : string) : bytes := unescape (list_byte_of_string s).

(** [len(b)] as a Go [int]. *)
Definition len {A} (l : list A) : Z := Z.of_nat (length l).

(** [b[lo:]] and [b[lo:hi]] for in-range bounds. *)
Definition from (b : bytes) (lo : Z) : bytes := drop (Z.to_nat lo) b.
Definition slice (b : bytes) (lo hi : Z) : bytes :=
  take (Z.to_nat (hi - lo)) (drop (Z.to_nat lo) b).

(** [bytes.IndexByte]: index of the first [c] in [b], or [-1]. *)
Fixpoint IndexByte (b : bytes) (c : byte) : Z :=
  match b with
  | [] => -1
  | x :: r =>
      if Byte.eqb x c then 0
      else let i := IndexByte r c in if i <? 0 then -1 else i + 1
  end.

(** [strings.Contains]. *)
Fixpoint HasPrefix (s p : bytes) : bool :=
  match p, s with
  | [], _ => true
  | _ :: _, [] => false
  | y :: p', x :: s' => Byte.eqb x y && HasPrefix s' p'
  end.

Fixpoint Contains (s sub : bytes) : bool :=
  HasPrefix s sub ||
  match s with
  | [] => false
  | _ :: r => Contains r sub
  end.

(* ------------------------------------------------------------------ *)
(** ** Machine integers *)

Definition intSize : Z := 64.
Definition maxInt : Z := 2 ^ (intSize - 1) - 1.
Definition minInt : Z := - 2 ^ (intSize - 1).

(** The value an [int] expression has after two's-complement wrap-around. *)
Definition wrap_int (z : Z) : Z :=
  (z + 2 ^ (intSize - 1)) mod 2 ^ intSize - 2 ^ (intSize - 1).

(* ------------------------------------------------------------------ *)
(** ** strconv and fmt *)

Module strconv.

Fixpoint digits (u : uint) : bytes :=
  match u with
  | Nil => []
  | D0 r => x30 :: digits r
  | D1 r => x31 :: digits r
  | D2 r => x32 :: digits r
  | D3 r => x33 :: digits r
  | D4 r => x34 :: digits r
  | D5 r => x35 :: digits r
  | D6 r => x36 :: digits r
  | D7 r => x37 :: digits r
  | D8 r => x38 :: digits r
  | D9 r => x39 :: digits r
  end.

(** [strconv.Itoa] (and the verb [%d]): decimal text, a minus sign for
    negative numbers. *)
Definition Itoa (z : Z) : bytes :=
  match Z.to_int z with
  | Pos u => digits u
  | Neg u => x2d :: digits u
  end.

Definition digit_val (b : byte) : option Z :=
  let n := Z.of_N (Byte.to_N b) in
  if (48 <=? n) && (n <=? 57) then Some (n - 48) else None.

(** The unsigned magnitude of a run of decimal digits; [None] on any
    other character. *)
Fixpoint magnitude (acc : Z) (s : bytes) : option Z :=
  match s with
  | [] => Some acc
  | b :: r =>
      match digit_val b with
      | Some d => magnitude (acc * 10 + d) r
      | None => None
      end
  end.

(** [strconv.Atoi]: an optional sign, at least one decimal digit, and a
    value that fits the [int] type; [None] stands for a non-nil error
    (syntax or range). *)
Definition Atoi (s : bytes) : option Z :=
  let '(neg, ds) :=
    match s with
    | x2d :: r => (true, r)
    | x2b :: r => (false, r)
    | _ => (false, s)
    end in
  match ds with
  | [] => None
  | _ =>
      match magnitude 0 ds with
      | None => None
      | Some m =>
          let v := if neg then - m else m in
          if (minInt <=? v) && (v <=? maxInt) then Some v else None
      end
  end.

End strconv.

Module fmt.

(** [fmt.Sprintf("%d", v)] for the integer types. *)
Definition Sprintf_d (z : Z) : bytes := strconv.Itoa z.

(** The six digits after the point. *)
Definition frac6 (z : Z) : bytes :=
  let d := strconv.Itoa z in
  repeat x30 (6 - length d) ++ d.

(** A non-negative rational [num / den] scaled by [10^6] and rounded to
    the nearest integer, ties to even. *)
Definition round_micro (num den : Z) : Z :=
  let n := num * 1000000 in
  let q := n / den in
  let r := n mod den in
  if 2 * r <? den then q
  else if den <? 2 * r then q + 1
  else if Z.even q then q else q + 1.

(** [fmt.Sprintf("%f", v)] for [float32] and [float64]: six digits after
    the point. *)
Definition Sprintf_f (f : spec_float) : bytes :=
  match f with
  | S754_nan => lit "NaN"
  | S754_infinity s => if s then lit "-Inf" else lit "+Inf"
  | S754_zero s => (if s then lit "-" else []) ++ lit "0.000000"
  | S754_finite s m e =>
      let q :=
        if 0 <=? e then round_micro (Z.pos m * 2 ^ e) 1
        else round_micro (Z.pos m) (2 ^ (- e)) in
      (if s then lit "-" else [])
        ++ strconv.Itoa (q / 1000000) ++ lit "." ++ frac6 (q mod 1000000)
  end.

End fmt.

(* ------------------------------------------------------------------ *)
(** ** Errors *)

(** A non-nil Go [error], known by its message. *)
Record error := Err { Error : bytes }.

#[global] Instance error_eq_dec : EqDecision error.
Proof. solve_decision. Defined.

Definition ErrBadResponse : error := Err (lit "bad response").
Definition ErrNotEnoughParams : error := Err (lit "not enougn params").

Definition MAX_RETRIES : Z := 3.

(* ------------------------------------------------------------------ *)
(** ** The argument encoder: the first half of [Client.send] *)

(** The integer types that [send] accepts. *)
Inductive int_type := Int | Int32 | Int64 | Uint | Uint32 | Uint64.

(** A value of type [interface{}] as [send] tells them apart.  [AOther]
    is a value of any other dynamic type, carrying its [%v] text. *)
Inductive arg :=
| AString (s : bytes)
| ABytes (b : bytes)
| AStrings (l : list bytes)
| AInteger (t : int_type) (z : Z)
| AFloat (f : spec_float)
| ABool (b : bool)
| ANil
| AOther (v : bytes).

(** [buf.WriteString(strconv.Itoa(len(s))); buf.WriteByte('\n');
     buf.WriteString(s); buf.WriteByte('\n')]. *)
Definition write_block (buf s : bytes) : bytes :=
  ((buf ++ strconv.Itoa (len s)) ++ [LF]) ++ s ++ [LF].

(** The inner loop over a [[]string] argument. *)
Definition write_blocks (buf : bytes) (l : list bytes) : bytes :=
  fold_left write_block l buf.

(** The loop over [args]: the buffer so far, or the error of the
    [default] case. *)
Fixpoint send_args (buf : bytes) (args : list arg) : bytes + error :=
  match args with
  | [] => inl (buf ++ [LF])
  | a :: rest =>
      match a with
      | AString s => send_args (write_block buf s) rest
      | ABytes b => send_args (write_block buf b) rest
      | AStrings l => send_args (write_blocks buf l) rest
      | AInteger _ z => send_args (write_block buf (fmt.Sprintf_d z)) rest
      | AFloat f => send_args (write_block buf (fmt.Sprintf_f f)) rest
      | ABool b => send_args (write_block buf (if b then lit "1" else lit "0")) rest
      | ANil => send_args (write_block buf []) rest
      | AOther v => inr (Err (lit "bad request:" ++ v))
      end
  end.

(** What [send] hands to [c.sock.Write], when it gets that far. *)
Definition encode (args : list arg) : bytes + error := send_args [] args.

(* ------------------------------------------------------------------ *)
(** ** The frame decoder: [Client.parse] *)

(** What one call of [parse] does: [Nil] is [return nil] (a length line
    that does not parse), [Empty] is the final [return []string{}] (no
    complete frame yet, nothing consumed), [Resp fields n] is
    [c.recv_buf.Next(n); return resp], and [Panic] is a slice expression
    out of range. *)
Inductive parsed :=
| Nil
| Empty
| Resp (fields : list bytes) (n : Z)
| Panic.

(** [len(p) == 0 || (len(p) == 1 && p[0] == '\r')]. *)
Definition blank (p : bytes) : bool :=
  match p with
  | [] => true
  | [b] => Byte.eqb b CR
  | _ => false
  end.

(** The [for] loop of [parse] over [buf := c.recv_buf.Bytes()], with the
    loop variables [offset] and [resp].  Every turn moves [offset] forward,
    so [S (length buf)] turns of [fuel] are never used up
    ([parse_loop_total] below).  [offset] and [offset+idx+1] never pass
    [len(buf)]; the one sum that can leave the [int] range is
    [offset+size], where [size] comes from the wire.  The slice
    [buf[offset : offset+size]] is in range when
    [offset <= offset+size <= len(buf)], and the guard before it has
    already put [offset+size] below [len(buf)]. *)
Fixpoint parse_loop (fuel : nat) (buf : bytes) (offset : Z) (resp : list bytes)
  : option parsed :=
  match fuel with
  | O => None
  | S fuel =>
      let idx := IndexByte (from buf offset) LF in
      if idx =? -1 then Some Empty
      else
        let p := slice buf offset (offset + idx) in
        let offset := offset + idx + 1 in
        if blank p then
          match resp with
          | [] => parse_loop fuel buf offset resp
          | _ => Some (Resp resp offset)
          end
        else
          match strconv.Atoi p with
          | None => Some Nil
          | Some size =>
              if size <? 0 then Some Nil
              else
                let hi := wrap_int (offset + size) in
                if len buf <=? hi then Some Empty
                else if offset <=? hi then
                  parse_loop fuel buf (hi + 1) (resp ++ [slice buf offset hi])
                else Some Panic
          end
  end.

Definition parse (recv_buf : bytes) : parsed :=
  match parse_loop (S (length recv_buf)) recv_buf 0 [] with
  | Some r => r
  | None => Empty
  end.

(** The receive buffer after [parse]. *)
Definition retained (recv_buf : bytes) (r : parsed) : bytes :=
  match r with
  | Resp _ n => from recv_buf n
  | _ => recv_buf
  end.

(* ------------------------------------------------------------------ *)
(** ** Sockets and the network *)

Record TCPAddr := { IP : bytes; Port : Z }.

(** A [*net.TCPConn]: which connection it is, and whether it is still
    open. *)
Record TCPConn := { fd : nat; open : bool }.

(** One [c.sock.Read(tmp[0:])]: some bytes, or an error. *)
Inductive read_reply :=
| Data (chunk : bytes)
| Fail (e : error).

(** The network as the client meets it: the results of the coming [Write],
    [Read] and [DialTCP] calls, in order, and a log of what was written and
    dialled.  When a script runs out, writes and dials succeed and reads
    time out (the read deadline is set once per [recv], so only finitely
    many reads deliver data). *)
Record Net := {
  writes : list (option error);
  reads : list read_reply;
  dials : list (option error);
  sent : list bytes;
  dialed : list TCPAddr;
}.

Definition ErrClosed : error := Err (lit "use of closed network connection").
Definition ErrTimeout : error := Err (lit "i/o timeout").

Definition set_writes (n : Net) (w : list (option error)) (log : list bytes) : Net :=
  {| writes := w; reads := reads n; dials := dials n; sent := log; dialed := dialed n |}.
Definition set_reads (n : Net) (r : list read_reply) : Net :=
  {| writes := writes n; reads := r; dials := dials n; sent := sent n; dialed := dialed n |}.
Definition set_dials (n : Net) (d : list (option error)) (log : list TCPAddr) : Net :=
  {| writes := writes n; reads := reads n; dials := d; sent := sent n; dialed := log |}.

(** [sock.Write(b)]: on an open socket the bytes are logged and the
    script gives the result; a closed socket refuses them. *)
Definition Write (s : TCPConn) (n : Net) (b : bytes) : option error * Net :=
  if open s then
    match writes n with
    | [] => (None, set_writes n [] (sent n ++ [b]))
    | r :: w => (r, set_writes n w (sent n ++ [b]))
    end
  else (Some ErrClosed, n).

(** [net.DialTCP("tcp", nil, addr)]: the new socket takes the next free
    number. *)
Definition DialTCP (a : TCPAddr) (n : Net) : (TCPConn + error) * Net :=
  let s := {| fd := S (length (dialed n)); open := true |} in
  match dials n with
  | [] => (inl s, set_dials n [] (dialed n ++ [a]))
  | None :: d => (inl s, set_dials n d (dialed n ++ [a]))
  | Some e :: d => (inr e, set_dials n d (dialed n ++ [a]))
  end.

(* ------------------------------------------------------------------ *)
(** ** The connection engine *)

Record Client := {
  sock : TCPConn;
  recv_buf : bytes;
  addr : TCPAddr;
  mutex : bool;   (* [true] while the [sync.Mutex] is held *)
}.

Definition set_sock (c : Client) (s : TCPConn) : Client :=
  {| sock := s; recv_buf := recv_buf c; addr := addr c; mutex := mutex c |}.
Definition set_recv_buf (c : Client) (b : bytes) : Client :=
  {| sock := sock c; recv_buf := b; addr := addr c; mutex := mutex c |}.
Definition set_mutex (c : Client) (m : bool) : Client :=
  {| sock := sock c; recv_buf := recv_buf c; addr := addr c; mutex := m |}.

(** How a call ends: it returns, it never returns (parked on a mutex that
    nobody will release), or it panics. *)
Inductive outcome (A : Type) :=
| Returned (a : A)
| Blocked
| Panicked.
Arguments Returned {A} a.
Arguments Blocked {A}.
Arguments Panicked {A}.

(** A [[]string] result: [None] is the nil slice. *)
Abbreviation strings := (option (list bytes)).

(** [Connect] after a successful resolve and dial. *)
Definition Connect (a : TCPAddr) (n : Net) : (Client + error) * Net :=
  match DialTCP a n with
  | (inl s, n) => (inl {| sock := s; recv_buf := []; addr := a; mutex := false |}, n)
  | (inr e, n) => (inr e, n)
  end.

(** [Client.Close]: [c.sock.Close()]. *)
Definition Close (c : Client) : option error * Client :=
  if open (sock c)
  then (None, set_sock c {| fd := fd (sock c); open := false |})
  else (Some ErrClosed, c).

(** [Client.Reconnect]. *)
Definition Reconnect (c : Client) (n : Net) : option error * Client * Net :=
  let c := snd (Close c) in
  match DialTCP (addr c) n with
  | (inr e, n) => (Some e, c, n)
  | (inl s, n) =>
      let c := set_sock c s in
      let c := if 0 <? len (recv_buf c) then set_recv_buf c [] else c in
      (None, c, n)
  end.

(** [Client.send]: encode, then one [Write]. *)
Definition send (c : Client) (n : Net) (args : list arg) : option error * Net :=
  match encode args with
  | inr e => (Some e, n)
  | inl b => Write (sock c) n b
  end.

(** The [for] loop of [recv] over the coming reads, threading the receive
    buffer. *)
Fixpoint recv_loop (rs : list read_reply) (buf : bytes)
  : outcome (strings * option error) * bytes * list read_reply :=
  match rs with
  | [] => (Returned (None, Some ErrTimeout), buf, [])
  | Fail e :: rs => (Returned (None, Some e), buf, rs)
  | Data chunk :: rs =>
      let buf := buf ++ chunk in
      match parse buf with
      | Nil => (Returned (None, None), buf, rs)
      | Empty => recv_loop rs buf
      | Resp fields n =>
          if 0 <? len fields then (Returned (Some fields, None), from buf n, rs)
          else recv_loop rs (from buf n)
      | Panic => (Panicked, buf, rs)
      end
  end.

(** [Client.recv]. *)
Definition recv (c : Client) (n : Net)
  : outcome (strings * option error) * Client * Net :=
  if open (sock c) then
    let '(r, buf, rs) := recv_loop (reads n) (recv_buf c) in
    (r, set_recv_buf c buf, set_reads n rs)
  else (Returned (None, Some ErrClosed), c, n).

(** The deferred [c.unlock()]: it runs when the call returns or panics,
    and unlocking a mutex that is not held is a fatal error. *)
Definition deferred_unlock {A} (r : outcome A * Client * Net)
  : outcome A * Client * Net :=
  let '(o, c, n) := r in
  match o with
  | Blocked => (Blocked, c, n)
  | _ => if mutex c then (o, set_mutex c false, n) else (Panicked, c, n)
  end.

(** [Client.Do].  The recursion is on [fuel]; [Do] below supplies enough
    of it. *)
Fixpoint Do_fuel (fuel : nat) (c : Client) (n : Net) (retries : Z) (args : list arg)
  : option (outcome (strings * option error) * Client * Net) :=
  match fuel with
  | O => None
  | S fuel =>
      if mutex c then Some (Blocked, c, n)          (* c.lock() *)
      else
        let c := set_mutex c true in
        let '(err, n) := send c n args in
        match err with
        | Some e =>
            if negb (Contains (Error e) (lit "bad request")) && (retries <? MAX_RETRIES)
            then
              let '(_, c, n) := Reconnect c n in
              option_map deferred_unlock (Do_fuel fuel c n (retries + 1) args)
            else Some (deferred_unlock (Returned (None, Some e), c, n))
        | None =>
            let '(r, c, n) := recv c n in
            match r with
            | Returned (resp, err) =>
                if bool_decide (err <> None) && (retries <? MAX_RETRIES)
                then
                  let '(_, c, n) := Reconnect c n in
                  option_map deferred_unlock (Do_fuel fuel c n (retries + 1) args)
                else Some (deferred_unlock (Returned (resp, err), c, n))
            | _ => Some (deferred_unlock (r, c, n))
            end
        end
  end.

Definition Do (c : Client) (n : Net) (retries : Z) (args : list arg)
  : outcome (strings * option error) * Client * Net :=
  match Do_fuel (S (Z.to_nat (MAX_RETRIES - retries))) c n retries args with
  | Some r => r
  | None => (Blocked, c, n)
  end.

(* ------------------------------------------------------------------ *)
(** ** Typed operations of the client *)

(** [len(resp) > 0 && resp[0] == "ok"]. *)
Definition status_ok (resp : strings) : bool :=
  match resp with
  | Some (s :: _) => bool_decide (s = lit "ok")
  | _ => false
  end.

(** The tail of [Set], [MultiDel] and their like, after [Do] returned. *)
Definition decode_ok (r : strings * option error) : bool * option error :=
  match r with
  | (_, Some e) => (false, Some e)
  | (resp, None) => if status_ok resp then (true, None) else (false, Some ErrBadResponse)
  end.

(** The tail of [MultiHDel]: [len(resp) == 2 && resp[0] == "ok"]. *)
Definition decode_ok2 (r : strings * option error) : bool * option error :=
  match r with
  | (_, Some e) => (false, Some e)
  | (resp, None) =>
      if (len (default [] resp) =? 2) && status_ok resp then (true, None)
      else (false, Some ErrBadResponse)
  end.

(** A typed operation: [Do(0, args...)] and then its decoder. *)
Definition call {A} (decode : strings * option error -> A)
    (c : Client) (n : Net) (args : list arg) : outcome A * Client * Net :=
  match Do c n 0 args with
  | (Returned r, c, n) => (Returned (decode r), c, n)
  | (Blocked, c, n) => (Blocked, c, n)
  | (Panicked, c, n) => (Panicked, c, n)
  end.

Definition Set_args (key val : bytes) : list arg :=
  [AString (lit "set"); AString key; AString val].

(** [Client.Set] ([Set] alone is a keyword here). *)
Definition Client_Set (c : Client) (n : Net) (key val : bytes) :=
  call decode_ok c n (Set_args key val).

(** [args = append(args, k)] for every [k]. *)
Definition append_strings (args : list arg) (ks : list bytes) : list arg :=
  fold_left (fun args k => args ++ [AString k]) ks args.

Definition MultiDel_args (ks : list bytes) : list arg :=
  append_strings ([] ++ [AString (lit "multi_del")]) ks.

(** [Client.MultiDel]. *)
Definition MultiDel (c : Client) (n : Net) (ks : list bytes) :=
  call decode_ok c n (MultiDel_args ks).

Definition MultiHDel_args (key : bytes) (fieldList : list bytes) : list arg :=
  append_strings [AString (lit "multi_del"); AString key] fieldList.

(** [Client.MultiHDel]. *)
Definition MultiHDel (c : Client) (n : Net) (key : bytes) (fieldList : list bytes) :=
  if len fieldList =? 0 then (Returned (false, Some ErrNotEnoughParams), c, n)
  else call decode_ok2 c n (MultiHDel_args key fieldList).

(* ------------------------------------------------------------------ *)
(** ** crypto/sha1 *)

(** The digest of the standard library, following FIPS 180-4, on 32-bit
    words held in [Z]. *)
Module sha1.

Definition mask32 (x : Z) : Z := Z.land x 4294967295.
Definition rotl (x k : Z) : Z :=
  mask32 (Z.lor (Z.shiftl x k) (Z.shiftr x (32 - k))).
Definition not32 (x : Z) : Z := Z.lxor x 4294967295.

Definition byte_val (b : byte) : Z := Z.of_N (Byte.to_N b).
Definition val_byte (z : Z) : byte :=
  default x00 (Byte.of_N (Z.to_N (Z.land z 255))).

Definition be64 (x : Z) : list Z :=
  map (fun i => Z.land (Z.shiftr x (8 * i)) 255) [7; 6; 5; 4; 3; 2; 1; 0].
Definition be32 (x : Z) : list Z :=
  map (fun i => Z.land (Z.shiftr x (8 * i)) 255) [3; 2; 1; 0].

(** The message, one [0x80], zeros up to 56 modulo 64, the bit length. *)
Definition pad (m : list Z) : list Z :=
  m ++ [128] ++ repeat 0 (Z.to_nat ((55 - len m) mod 64)) ++ be64 (8 * len m).

Fixpoint words (bs : list Z) : list Z :=
  match bs with
  | a :: b :: c :: d :: r =>
      Z.lor (Z.lor (Z.shiftl a 24) (Z.shiftl b 16)) (Z.lor (Z.shiftl c 8) d)
        :: words r
  | _ => []
  end.

(** The message schedule, latest word first. *)
Fixpoint extend (k : nat) (w : list Z) : list Z :=
  match k with
  | O => w
  | S k =>
      let x := Z.lxor (Z.lxor (nth 2 w 0) (nth 7 w 0))
                      (Z.lxor (nth 13 w 0) (nth 15 w 0)) in
      extend k (rotl x 1 :: w)
  end.

Definition schedule (block : list Z) : list Z := rev (extend 64 (rev block)).

Definition state : Type := Z * Z * Z * Z * Z.

Definition round (i : Z) (w : Z) (s : state) : state :=
  let '(a, b, c, d, e) := s in
  let '(f, k) :=
    if i <? 20 then (Z.lor (Z.land b c) (Z.land (not32 b) d), 1518500249)
    else if i <? 40 then (Z.lxor (Z.lxor b c) d, 1859775393)
    else if i <? 60 then
      (Z.lor (Z.lor (Z.land b c) (Z.land b d)) (Z.land c d), 2400959708)
    else (Z.lxor (Z.lxor b c) d, 3395469782) in
  (mask32 (rotl a 5 + f + e + k + w), a, rotl b 30, c, d).

Fixpoint rounds (i : Z) (ws : list Z) (s : state) : state :=
  match ws with
  | [] => s
  | w :: ws => rounds (i + 1) ws (round i w s)
  end.

Definition block (h : state) (b : list Z) : state :=
  let '(h0, h1, h2, h3, h4) := h in
  let '(a, b, c, d, e) := rounds 0 (schedule b) h in
  (mask32 (h0 + a), mask32 (h1 + b), mask32 (h2 + c), mask32 (h3 + d),
   mask32 (h4 + e)).

Fixpoint blocks (fuel : nat) (h : state) (ws : list Z) : state :=
  match fuel, ws with
  | S fuel, _ :: _ => blocks fuel (block h (take 16 ws)) (drop 16 ws)
  | _, _ => h
  end.

Definition init : state :=
  (1732584193, 4023233417, 2562383102, 271733878, 3285377520).

(** [h := sha1.New(); h.Write(k); h.Sum(nil)]: the twenty digest bytes. *)
Definition Sum (k : bytes) : bytes :=
  let ws := words (pad (map byte_val k)) in
  let '(h0, h1, h2, h3, h4) := blocks (length ws) init ws in
  map val_byte (be32 h0 ++ be32 h1 ++ be32 h2 ++ be32 h3 ++ be32 h4).

End sha1.

(* ------------------------------------------------------------------ *)
(** ** The shard router *)

(** A [*KVPair] is an [option KVPair]. *)
Record KVPair := NewKVPair { k : bytes; v : arg }.

Module Cluster.

Record t := { shards : list Client }.

(** [uint16(x)] of a non-negative [x]. *)
Definition uint16 (x : Z) : Z := x mod 65536.

(** [Cluster.locate]: [Panicked] is the integer division by zero. *)
Definition locate (c : t) (k : bytes) : outcome Z :=
  match sha1.Sum k with
  | s0 :: s1 :: _ =>
      let h := Z.lor (Z.shiftl (uint16 (sha1.byte_val s0)) 0)
                     (uint16 (Z.shiftl (uint16 (sha1.byte_val s1)) 8)) in
      let m := uint16 (len (shards c)) in
      if m =? 0 then Panicked else Returned (h mod m)
  | _ => Panicked
  end.

(** [res[loc] = append(res[loc], x)]. *)
Definition push {A} (res : gmap Z (list A)) (loc : Z) (x : A) : gmap Z (list A) :=
  <[loc := default [] (res !! loc) ++ [x]]> res.

(** [Cluster.locateKeys]. *)
Fixpoint locateKeys_from (c : t) (res : gmap Z (list bytes)) (ks : list bytes)
  : outcome (gmap Z (list bytes)) :=
  match ks with
  | [] => Returned res
  | k :: ks =>
      match locate c k with
      | Returned loc => locateKeys_from c (push res loc k) ks
      | Blocked => Blocked
      | Panicked => Panicked
      end
  end.

Definition locateKeys (c : t) (ks : list bytes) : outcome (gmap Z (list bytes)) :=
  locateKeys_from c ∅ ks.

(** [Cluster.locatePairs]; reading [p.k] through a nil pointer panics. *)
Fixpoint locatePairs_from (c : t) (res : gmap Z (list (option KVPair)))
    (ps : list (option KVPair)) : outcome (gmap Z (list (option KVPair))) :=
  match ps with
  | [] => Returned res
  | None :: _ => Panicked
  | Some p :: ps =>
      match locate c (k p) with
      | Returned loc => locatePairs_from c (push res loc (Some p)) ps
      | Blocked => Blocked
      | Panicked => Panicked
      end
  end.

Definition locatePairs (c : t) (ps : list (option KVPair))
  : outcome (gmap Z (list (option KVPair))) :=
  locatePairs_from c ∅ ps.

(** The bulk operations start one goroutine per entry of [parts]; each
    calls the shard's client and sends one message on a channel that
    holds [len(parts)] messages, and the caller receives [len(parts)]
    messages.  The shards' clients are distinct, so what a worker gets
    from its client does not depend on the other workers: it is given
    by [sub], indexed by the shard.  What does depend on the scheduler
    is the order of the messages on the channel, [arrival], and, for
    the shared variable [err], the order of the stores into it,
    [stores]; both list the shards of [parts]. *)

(** One worker of [MultiGet]. *)
Definition get_worker
    (sub : Z -> list bytes -> option (list (option KVPair)) * option error)
    (parts : gmap Z (list bytes)) (idx : Z) : list (option KVPair) :=
  match sub idx (default [] (parts !! idx)) with
  | (Some ps, None) => ps
  | _ => []
  end.

(** [for _, v := range pairs { if v == nil { continue }; ps = append(ps, v) }]. *)
Definition collect (ps : list KVPair) (pairs : list (option KVPair)) : list KVPair :=
  fold_left (fun ps v => match v with None => ps | Some p => ps ++ [p] end) pairs ps.

(** [Cluster.MultiGet]. *)
Definition MultiGet (c : t)
    (sub : Z -> list bytes -> option (list (option KVPair)) * option error)
    (arrival : list Z) (ks : list bytes) : outcome (list KVPair) :=
  if len ks =? 0 then Returned []
  else
    match locateKeys c ks with
    | Returned parts =>
        Returned (fold_left collect (map (get_worker sub parts) arrival) [])
    | Blocked => Blocked
    | Panicked => Panicked
    end.

(** One worker of [MultiSet] or [MultiDel]: the message it sends and the
    value it stores into [err], if it stores one. *)
Definition flag_worker {A} (sub : Z -> list A -> bool * option error)
    (parts : gmap Z (list A)) (idx : Z) : Z * option error :=
  match sub idx (default [] (parts !! idx)) with
  | (true, None) => (idx, None)
  | (_, err2) => (-1, err2)
  end.

(** The shared [err] after all the workers: the last store wins. *)
Definition last_store {A} (sub : Z -> list A -> bool * option error)
    (parts : gmap Z (list A)) (stores : list Z) : option error :=
  fold_left
    (fun err idx => match snd (flag_worker sub parts idx) with
                    | Some e => Some e
                    | None => err
                    end)
    stores None.

(** The receiving loop: [if id := <-ch; id >= 0 { ... parts[id] ... }]. *)
Definition gather {A B} (f : A -> B) (parts : gmap Z (list A)) (ids : list Z) : list B :=
  fold_left
    (fun acc id => if 0 <=? id then acc ++ map f (default [] (parts !! id)) else acc)
    ids [].

(** [p.k] for a pointer stored by [locatePairs], which is never nil. *)
Definition key_of (p : option KVPair) : bytes :=
  match p with
  | Some p => k p
  | None => []
  end.

(** [Cluster.MultiSet]. *)
Definition MultiSet (c : t)
    (sub : Z -> list (option KVPair) -> bool * option error)
    (arrival stores : list Z) (ps : list (option KVPair))
  : outcome (list bytes * option error) :=
  if len ps =? 0 then Returned ([], None)
  else
    match locatePairs c ps with
    | Returned parts =>
        Returned (gather key_of parts (map (fun i => fst (flag_worker sub parts i)) arrival),
                  last_store sub parts stores)
    | Blocked => Blocked
    | Panicked => Panicked
    end.

(** [Cluster.MultiDel]. *)
Definition MultiDel (c : t)
    (sub : Z -> list bytes -> bool * option error)
    (arrival stores : list Z) (ks : list bytes)
  : outcome (list bytes * option error) :=
  if len ks =? 0 then Returned ([], None)
  else
    match locateKeys c ks with
    | Returned parts =>
        Returned (gather id parts (map (fun i => fst (flag_worker sub parts i)) arrival),
                  last_store sub parts stores)
    | Blocked => Blocked
    | Panicked => Panicked
    end.

End Cluster.

(* ------------------------------------------------------------------ *)
(** ** The second client file: [Do] without the mutex *)

(** The other copy of the client in the repository has the same [send]
    and the same [Do] except for the two lines [c.lock()] and
    [defer c.unlock()]; its [Reconnect] keeps the receive buffer and its
    [parse] splits the buffer into lines.  Its client has no [mutex]
    field; the field of [Client] is carried along untouched. *)
Module Unlocked.

(** [strings.Split(s, "\n")]. *)
Fixpoint Split (s : bytes) : list bytes :=
  match s with
  | [] => [[]]
  | b :: r =>
      if Byte.eqb b LF then [] :: Split r
      else
        match Split r with
        | l :: ls => (b :: l) :: ls
        | [] => [[b]]
        end
  end.

(** The loop [for i, v := range sl] of [parse]. *)
Fixpoint parse_lines (i : Z) (sl : list bytes) (resp : list bytes) : list bytes :=
  match sl with
  | [] => resp
  | v :: sl =>
      if bool_decide (v = []) then resp
      else parse_lines (i + 1) sl (if i mod 2 =? 1 then resp ++ [v] else resp)
  end.

Definition parse (recv_buf : bytes) : list bytes :=
  parse_lines 0 (Split recv_buf) [].

Fixpoint recv_loop (rs : list read_reply) (buf : bytes)
  : (strings * option error) * bytes * list read_reply :=
  match rs with
  | [] => ((None, Some ErrTimeout), buf, [])
  | Fail e :: rs => ((None, Some e), buf, rs)
  | Data chunk :: rs =>
      let buf := buf ++ chunk in
      let resp := parse buf in
      if 0 <? len resp then ((Some resp, None), buf, rs) else recv_loop rs buf
  end.

Definition recv (c : Client) (n : Net) : (strings * option error) * Client * Net :=
  if open (sock c) then
    let '(r, buf, rs) := recv_loop (reads n) (recv_buf c) in
    (r, set_recv_buf c buf, set_reads n rs)
  else ((None, Some ErrClosed), c, n).

Definition Reconnect (c : Client) (n : Net) : option error * Client * Net :=
  let c := snd (Close c) in
  match DialTCP (addr c) n with
  | (inr e, n) => (Some e, c, n)
  | (inl s, n) => (None, set_sock c s, n)
  end.

Fixpoint Do_fuel (fuel : nat) (c : Client) (n : Net) (retries : Z) (args : list arg)
  : option ((strings * option error) * Client * Net) :=
  match fuel with
  | O => None
  | S fuel =>
      let '(err, n) := send c n args in
      match err with
      | Some e =>
          if negb (Contains (Error e) (lit "bad request")) && (retries <? MAX_RETRIES)
          then
            let '(_, c, n) := Reconnect c n in
            Do_fuel fuel c n (retries + 1) args
          else Some ((None, Some e), c, n)
      | None =>
          let '((resp, err), c, n) := recv c n in
          if bool_decide (err <> None) && (retries <? MAX_RETRIES)
          then
            let '(_, c, n) := Reconnect c n in
            Do_fuel fuel c n (retries + 1) args
          else Some ((resp, err), c, n)
      end
  end.

Definition Do (c : Client) (n : Net) (retries : Z) (args : list arg)
  : option ((strings * option error) * Client * Net) :=
  Do_fuel (S (Z.to_nat (MAX_RETRIES - retries))) c n retries args.

End Unlocked.

(* ------------------------------------------------------------------ *)
(** ** [Do] with the mutex free, in closed form *)

(** What the retry branch of [Do] comes to: [Reconnect], and then the
    nested [Do] meets the mutex its caller still holds. *)
Definition retry (c : Client) (n : Net)
  : outcome (strings * option error) * Client * Net :=
  let '(_, c, n) := Reconnect c n in (Blocked, c, n).

(** [Do] on a client whose mutex is free, attempt by attempt. *)
Definition attempt (c : Client) (n : Net) (retries : Z) (args : list arg)
  : outcome (strings * option error) * Client * Net :=
  let c := set_mutex c true in
  match send c n args with
  | (Some e, n) =>
      if negb (Contains (Error e) (lit "bad request")) && (retries <? MAX_RETRIES)
      then retry c n
      else (Returned (None, Some e), set_mutex c false, n)
  | (None, n) =>
      match recv c n with
      | (Returned (resp, err), c, n) =>
          if bool_decide (err <> None) && (retries <? MAX_RETRIES)
          then retry c n
          else (Returned (resp, err), set_mutex c false, n)
      | (r, c, n) => (r, set_mutex c false, n)
      end
  end.

(* ------------------------------------------------------------------ *)
(** ** The words of the specification *)

(** The wire format in the words of the specification: one value framed
    as its decimal length, a line feed, its raw bytes, a line feed. *)
Definition frame (s : bytes) : bytes := strconv.Itoa (len s) ++ [LF] ++ s ++ [LF].

(** The texts that an argument contributes, one frame each: a
    sequence of texts contributes its elements, every other supported
    value one text. *)
Definition texts (a : arg) : list bytes :=
  match a with
  | AString s => [s]
  | ABytes b => [b]
  | AStrings l => l
  | AInteger _ z => [fmt.Sprintf_d z]
  | AFloat f => [fmt.Sprintf_f f]
  | ABool true => [lit "1"]
  | ABool false => [lit "0"]
  | ANil => [[]]
  | AOther _ => []
  end.

Definition supported (a : arg) : Prop :=
  match a with
  | AOther _ => False
  | _ => True
  end.

(** The request of the specification: the frames, then one empty line. *)
Definition request (args : list arg) : bytes :=
  concat (map frame (concat (map texts args))) ++ [LF].

(** The first two bytes of a digest read as a little-endian 16-bit
    number, in the words of the specification. *)
Definition le16 (s : bytes) : Z :=
  match s with
  | s0 :: s1 :: _ => sha1.byte_val s0 + 256 * sha1.byte_val s1
  | _ => 0
  end.

(** The keys that [parts] holds for shard [i]. *)
Definition part {A} (parts : gmap Z (list A)) (i : Z) : list A :=
  default [] (parts !! i).

(** Whether the sub-request of shard [i] succeeded, for [MultiSet] and
    [MultiDel]. *)
Definition succeeded {A} (sub : Z -> list A -> bool * option error)
    (parts : gmap Z (list A)) (i : Z) : bool :=
  match sub i (part parts i) with
  | (true, None) => true
  | _ => false
  end.

(** The same shards, with every failure replaced by the answer of a shard
    that holds none of the keys. *)
Definition not_found_on_error
    (sub : Z -> list bytes -> option (list (option KVPair)) * option error)
    (i : Z) (ks : list bytes) : option (list (option KVPair)) * option error :=
  match sub i ks with
  | (_, Some _) => (None, None)
  | r => r
  end.

(* ------------------------------------------------------------------ *)
(** ** Worked values *)

Definition demo_addr : TCPAddr := {| IP := lit "127.0.0.1"; Port := 8888 |}.

(** A network that accepts every write and dial and never answers. *)
Definition silent : Net :=
  {| writes := []; reads := []; dials := []; sent := []; dialed := [] |}.

Definition demo_client : Client :=
  {| sock := {| fd := 1; open := true |}; recv_buf := []; addr := demo_addr;
     mutex := false |}.

Definition broken_pipe : error := Err (lit "write: broken pipe").

Definition huge_length : bytes := lit "9223372036854775807\n".

Definition garbage_reply : Net :=
  {| writes := []; reads := [Data (lit "x\n")]; dials := []; sent := [];
     dialed := [] |}.

Definition mixed_args : list arg :=
  [AString (lit "cmd"); AStrings [lit "k1"; lit "k2"]; AInteger Int32 (-7);
   ABool true; ANil; ABytes (lit "raw"); AFloat (S754_finite false 3 (-1))].

Definition table (size : Z) : Cluster.t :=
  {| Cluster.shards := repeat demo_client (Z.to_nat size) |}.

(** Three shards; the keys [a], [b] and [j] live on shards 0, 1 and 2. *)
Definition abj : list bytes := [lit "a"; lit "b"; lit "j"].

Definition pair_of (key : bytes) : option KVPair :=
  Some (NewKVPair key (AString (lit "v"))).

(** Shards 0 and 1 answer; shard 2 is unreachable. *)
Definition shard2_down (i : Z) (ks : list bytes)
  : option (list (option KVPair)) * option error :=
  if i =? 2 then (None, Some ErrTimeout) else (Some (map pair_of ks), None).

(** Shards 0 and 1 answer; shard 2 answers that it holds none of the
    keys. *)
Definition shard2_empty (i : Z) (ks : list bytes)
  : option (list (option KVPair)) * option error :=
  if i =? 2 then (None, None) else (Some (map pair_of ks), None).

(* ------------------------------------------------------------------ *)
(** ** A response on the wire *)

(** The bytes of one response (or request) whose fields are [fs]: the
    frames, then the empty line. *)
Definition wire (fs : list bytes) : bytes := concat (map frame fs) ++ [LF].

(* ------------------------------------------------------------------ *)
(** ** Decimal digits *)

(** The number that a run of decimal digits stands for, most significant
    digit first, continuing from [acc]. *)
Fixpoint uint_val (acc : Z) (u : uint) : Z :=
  match u with
  | Decimal.Nil => acc
  | D0 r => uint_val (acc * 10 + 0) r
  | D1 r => uint_val (acc * 10 + 1) r
  | D2 r => uint_val (acc * 10 + 2) r
  | D3 r => uint_val (acc * 10 + 3) r
  | D4 r => uint_val (acc * 10 + 4) r
  | D5 r => uint_val (acc * 10 + 5) r
  | D6 r => uint_val (acc * 10 + 6) r
  | D7 r => uint_val (acc * 10 + 7) r
  | D8 r => uint_val (acc * 10 + 8) r
  | D9 r => uint_val (acc * 10 + 9) r
  end.

(** A digit is neither a line feed, nor a carriage return, nor a sign. *)
Definition plain (b : byte) : Prop :=
  Byte.eqb b LF = false /\ Byte.eqb b CR = false /\ b <> x2d /\ b <> x2b.

(* ------------------------------------------------------------------ *)
(** ** More typed operations of the client *)

#[global] Instance byte_countable : Countable byte :=
  inj_countable Byte.to_N Byte.of_N Byte.of_to_N.

#[global] Instance outcome_eq_dec {A} `{EqDecision A} : EqDecision (outcome A).
Proof. solve_decision. Defined.

(** A typed operation whose decoder indexes into the response and so can
    panic. *)
Definition call_o {A} (decode : strings * option error -> outcome A)
    (c : Client) (n : Net) (args : list arg) : outcome A * Client * Net :=
  match Do c n 0 args with
  | (Returned r, c, n) => (decode r, c, n)
  | (Blocked, c, n) => (Blocked, c, n)
  | (Panicked, c, n) => (Panicked, c, n)
  end.

(** [len(resp)&1 == 1 && resp[0] == "ok"]. *)
Definition odd_ok (resp : strings) : bool :=
  (Z.land (len (default [] resp)) 1 =? 1) && status_ok resp.

(** [len(resp) > 0 && resp[0] == "not_found"]. *)
Definition status_not_found (resp : strings) : bool :=
  match resp with
  | Some (s :: _) => bool_decide (s = lit "not_found")
  | _ => false
  end.

(** The loop [for i := 0; i < len(res); i += 2] of [Scan], which reads
    [res[i]] and [res[i+1]]: it walks [res] two elements at a time, and
    [res[i+1]] is out of range when one element is left. *)
Fixpoint pair_up (res : list bytes) (kvList : list (bytes * bytes))
  : outcome (list (bytes * bytes)) :=
  match res with
  | [] => Returned kvList
  | [_] => Panicked
  | k :: v :: res => pair_up res (kvList ++ [(k, v)])
  end.

(** The tail of [Scan] (and of [HScan], [HRScan]) after [Do] returned. *)
Definition Scan_decode (r : strings * option error)
  : outcome (option (list (bytes * bytes)) * option error) :=
  match r with
  | (_, Some e) => Returned (None, Some e)
  | (resp, None) =>
      if odd_ok resp then
        match pair_up (tail (default [] resp)) [] with
        | Returned kvList => Returned (Some kvList, None)
        | Blocked => Blocked
        | Panicked => Panicked
        end
      else Returned (None, Some ErrBadResponse)
  end.

(** [Client.Scan]. *)
Definition Scan (c : Client) (n : Net) (startKey endKey : bytes) (limit : Z) :=
  call_o Scan_decode c n
    [AString (lit "scan"); AString startKey; AString endKey; AInteger Int limit].

(** An error value of a typed operation: one of the client's own, or
    the [*strconv.NumError] of a failed [ParseInt], known by the text it
    failed on. *)
Inductive fault :=
| Plain (e : error)
| NumError (num : bytes).

(** [strconv.ParseInt(s, 10, 64)]: where [int] has 64 bits it accepts
    what [Atoi] accepts. *)
Definition ParseInt (s : bytes) : option Z := strconv.Atoi s.

(** The loop of [ZScan] over [res := resp[1:]]. *)
Fixpoint zscan_loop (res : list bytes) (esMap : gmap bytes Z)
  : outcome (option (gmap bytes Z) * option fault) :=
  match res with
  | [] => Returned (Some esMap, None)
  | [_] => Panicked
  | k :: s :: res =>
      match ParseInt s with
      | None => Returned (None, Some (NumError s))
      | Some v => zscan_loop res (<[k := v]> esMap)
      end
  end.

(** The tail of [ZScan] (and of [ZRScan]) after [Do] returned. *)
Definition ZScan_decode (r : strings * option error)
  : outcome (option (gmap bytes Z) * option fault) :=
  match r with
  | (_, Some e) => Returned (None, Some (Plain e))
  | (resp, None) =>
      if status_ok resp then zscan_loop (tail (default [] resp)) ∅
      else Returned (None, Some (Plain ErrBadResponse))
  end.

(** [Client.ZScan]. *)
Definition ZScan (c : Client) (n : Net) (key startEle : bytes)
    (scoreStart scoreEnd limit : Z) :=
  call_o ZScan_decode c n
    [AString (lit "zscan"); AString key; AString startEle;
     AInteger Int scoreStart; AInteger Int scoreEnd; AInteger Int limit].

(** The loop [for i := 1; i < len(resp); i += 2] of [Client.MultiGet],
    over what follows [resp[0]]. *)
Fixpoint pairs_up (rest : list bytes) (pairs : list (option KVPair))
  : outcome (list (option KVPair)) :=
  match rest with
  | [] => Returned pairs
  | [_] => Panicked
  | key :: val :: rest =>
      pairs_up rest (pairs ++ [Some (NewKVPair key (AString val))])
  end.

(** The tail of [Client.MultiGet] after [Do] returned; [pairs] stays nil
    when nothing was appended. *)
Definition MultiGet_decode (r : strings * option error)
  : outcome (option (list (option KVPair)) * option error) :=
  match r with
  | (_, Some e) => Returned (None, Some e)
  | (resp, None) =>
      if odd_ok resp then
        match pairs_up (tail (default [] resp)) [] with
        | Returned [] => Returned (None, None)
        | Returned pairs => Returned (Some pairs, None)
        | Blocked => Blocked
        | Panicked => Panicked
        end
      else if status_not_found resp then Returned (None, None)
      else Returned (None, Some ErrBadResponse)
  end.

(** [Client.MultiGet]. *)
Definition Client_MultiGet (c : Client) (n : Net) (ks : list bytes) :=
  call_o MultiGet_decode c n (append_strings ([] ++ [AString (lit "multi_get")]) ks).

(* ------------------------------------------------------------------ *)
(** ** More of the shard router *)

(** [Cluster.Close]: the shards in order, stopping at the first error. *)
Fixpoint Close_shards (shards : list Client) : option error * list Client :=
  match shards with
  | [] => (None, [])
  | conn :: rest =>
      match Close conn with
      | (Some e, conn) => (Some e, conn :: rest)
      | (None, conn) =>
          let '(e, rest) := Close_shards rest in (e, conn :: rest)
      end
  end.

Definition Cluster_Close (c : Cluster.t) : option error * Cluster.t :=
  let '(e, shards) := Close_shards (Cluster.shards c) in
  (e, {| Cluster.shards := shards |}).

(** Whether the key lives on a shard whose sub-request succeeded. *)
Definition key_succeeded {A} (c : Cluster.t)
    (sub : Z -> list A -> bool * option error) (parts : gmap Z (list A))
    (key : bytes) : bool :=
  match Cluster.locate c key with
  | Returned i => succeeded sub parts i
  | _ => false
  end.

(** The pairs of a response, flattened as they stand on the wire. *)
Definition flat (kvs : list (bytes * bytes)) : list bytes :=
  concat (map (fun kv => [fst kv; snd kv]) kvs).

(** A shard after its socket was closed. *)
Definition closed (c : Client) : Client := snd (Close c).

(** [Cluster.locateKeys] of the first cluster file, which returns a
    slice with one entry per shard: [res := make([][][]byte,
    len(c.shards))] and then [res[loc] = append(res[loc], k)] for every
    key; indexing [res] outside its length panics. *)
Fixpoint locateKeys1_from (c : Cluster.t) (res : list (list bytes)) (ks : list bytes)
  : outcome (list (list bytes)) :=
  match ks with
  | [] => Returned res
  | key :: ks =>
      match Cluster.locate c key with
      | Returned loc =>
          match res !! Z.to_nat loc with
          | Some l => locateKeys1_from c (<[Z.to_nat loc := l ++ [key]]> res) ks
          | None => Panicked
          end
      | Blocked => Blocked
      | Panicked => Panicked
      end
  end.

Definition locateKeys1 (c : Cluster.t) (ks : list bytes) : outcome (list (list bytes)) :=
  locateKeys1_from c (replicate (length (Cluster.shards c)) []) ks.

(* ================================================================== *)
(** * Properties *)

(* ------------------------------------------------------------------ *)
(** ** Slices and [IndexByte] *)

Section BytesFacts.
Implicit Types (b x : bytes) (c : byte).

Lemma len_app {A} (l l' : list A) : len (l ++ l') = len l + len l'.
Proof. unfold len. rewrite length_app. lia. Qed.

Lemma len_nonneg {A} (l : list A) : 0 <= len l.
Proof. unfold len. lia. Qed.

Lemma IndexByte_range b c :
  IndexByte b c = -1 \/ 0 <= IndexByte b c < len b.
Proof.
  induction b as [|y b IH]; [now left|].
  cbn [IndexByte]. unfold len in *. cbn [length].
  destruct (Byte.eqb y c); [right; lia|].
  destruct (Z.ltb_spec (IndexByte b c) 0); [now left|right; lia].
Qed.

Lemma IndexByte_app b x c :
  IndexByte b c <> -1 -> IndexByte (b ++ x) c = IndexByte b c.
Proof.
  induction b as [|y b IH]; [intros []; reflexivity|].
  cbn [IndexByte app]. destruct (Byte.eqb y c); [reflexivity|].
  destruct (Z.ltb_spec (IndexByte b c) 0) as [Hlt|Hge]; [intros []; reflexivity|].
  intros _. rewrite IH; [|lia].
  destruct (Z.ltb_spec (IndexByte b c) 0); [lia|reflexivity].
Qed.

Lemma from_app b x lo :
  0 <= lo <= len b -> from (b ++ x) lo = from b lo ++ x.
Proof. unfold from, len. intros ?. apply drop_app_le. lia. Qed.

Lemma slice_app b x lo hi :
  0 <= lo -> hi <= len b -> slice (b ++ x) lo hi = slice b lo hi.
Proof.
  unfold slice, len. intros Hlo Hhi.
  destruct (Z.le_gt_cases lo hi) as [Hle|Hgt].
  - rewrite drop_app_le by lia. apply take_app_le.
    rewrite length_drop. lia.
  - replace (Z.to_nat (hi - lo)) with 0%nat by lia. reflexivity.
Qed.

Lemma len_from b lo : 0 <= lo <= len b -> len (from b lo) = len b - lo.
Proof. unfold from, len. intros ?. rewrite length_drop. lia. Qed.

End BytesFacts.

(* ------------------------------------------------------------------ *)
(** ** The decoder loop *)

(** The loop ends before its fuel does. *)
Lemma parse_loop_total fuel : forall buf offset resp,
  0 <= offset <= len buf ->
  (Z.to_nat (len buf - offset) < fuel)%nat ->
  exists r, parse_loop fuel buf offset resp = Some r.
Proof.
  induction fuel as [|fuel IH]; intros buf offset resp Hoff Hfuel; [lia|].
  cbn [parse_loop].
  pose proof (IndexByte_range (from buf offset) LF) as Hidx.
  rewrite len_from in Hidx by assumption.
  destruct (Z.eqb_spec (IndexByte (from buf offset) LF) (-1)) as [|Hne]; [eauto|].
  destruct Hidx as [|Hidx]; [contradiction|].
  destruct (blank _).
  - destruct resp; [|eauto]. apply IH; lia.
  - destruct (strconv.Atoi _) as [size|]; [|eauto].
    destruct (size <? 0); [eauto|].
    destruct (Z.leb_spec (len buf) (wrap_int (offset + IndexByte (from buf offset) LF + 1 + size)));
      [eauto|].
    destruct (Z.leb_spec (offset + IndexByte (from buf offset) LF + 1)
                (wrap_int (offset + IndexByte (from buf offset) LF + 1 + size)));
      [|eauto].
    apply IH; lia.
Qed.

(** More fuel changes nothing. *)
Lemma parse_loop_fuel fuel : forall fuel' buf offset resp r,
  parse_loop fuel buf offset resp = Some r ->
  (fuel <= fuel')%nat ->
  parse_loop fuel' buf offset resp = Some r.
Proof.
  induction fuel as [|fuel IH]; intros fuel' buf offset resp r H Hle; [discriminate|].
  destruct fuel' as [|fuel']; [lia|].
  cbn [parse_loop] in *.
  destruct (_ =? -1); [assumption|].
  destruct (blank _).
  - destruct resp; [|assumption]. apply IH; [assumption|lia].
  - destruct (strconv.Atoi _) as [size|]; [|assumption].
    destruct (size <? 0); [assumption|].
    destruct (_ <=? _); [assumption|].
    destruct (_ <=? _); [|assumption].
    apply IH; [assumption|lia].
Qed.

Lemma parse_eq buf :
  parse_loop (S (length buf)) buf 0 [] = Some (parse buf).
Proof.
  unfold parse.
  destruct (parse_loop_total (S (length buf)) buf 0 []) as [r ->];
    [pose proof (len_nonneg buf)|unfold len|]; try lia. reflexivity.
Qed.

(** Scan-resume, step one: whatever [parse_loop] decided on a buffer,
    other than that it is incomplete, it decides again when more bytes
    have arrived behind it. *)
Lemma parse_loop_app fuel : forall buf x offset resp r,
  0 <= offset <= len buf ->
  parse_loop fuel buf offset resp = Some r ->
  r <> Empty ->
  parse_loop fuel (buf ++ x) offset resp = Some r.
Proof.
  induction fuel as [|fuel IH]; intros buf x offset resp r Hoff H Hne; [discriminate|].
  cbn [parse_loop] in *.
  pose proof (IndexByte_range (from buf offset) LF) as Hidx.
  rewrite len_from in Hidx by assumption.
  destruct (Z.eqb_spec (IndexByte (from buf offset) LF) (-1)) as [|Hidx'];
    [congruence|].
  destruct Hidx as [|Hidx]; [contradiction|].
  rewrite from_app, IndexByte_app by assumption.
  destruct (Z.eqb_spec (IndexByte (from buf offset) LF) (-1)); [contradiction|].
  rewrite slice_app by lia.
  destruct (blank _).
  - destruct resp; [|assumption]. apply IH; [lia|assumption..].
  - destruct (strconv.Atoi _) as [size|]; [|assumption].
    destruct (size <? 0); [assumption|].
    destruct (Z.leb_spec (len buf) (wrap_int (offset + IndexByte (from buf offset) LF + 1 + size)));
      [congruence|].
    rewrite len_app.
    destruct (Z.leb_spec (len buf + len x) (wrap_int (offset + IndexByte (from buf offset) LF + 1 + size)));
      [pose proof (len_nonneg x); lia|].
    destruct (Z.leb_spec (offset + IndexByte (from buf offset) LF + 1)
                (wrap_int (offset + IndexByte (from buf offset) LF + 1 + size)));
      [|assumption].
    rewrite slice_app by lia.
    apply IH; [lia|assumption..].
Qed.

Lemma parse_app buf x :
  parse buf <> Empty -> parse (buf ++ x) = parse buf.
Proof.
  intros Hne. pose proof (parse_eq buf) as H.
  apply (parse_loop_app _ _ x) in H; [|pose proof (len_nonneg buf); lia|assumption].
  apply (parse_loop_fuel _ (S (length (buf ++ x)))) in H; [|rewrite length_app; lia].
  rewrite parse_eq in H. congruence.
Qed.

(** A returned frame has at least one field and ends inside the buffer. *)
Lemma parse_loop_Resp fuel : forall buf offset resp fields n,
  0 <= offset <= len buf ->
  parse_loop fuel buf offset resp = Some (Resp fields n) ->
  offset < n <= len buf /\ fields <> [].
Proof.
  induction fuel as [|fuel IH]; intros buf offset resp fields n Hoff H; [discriminate|].
  cbn [parse_loop] in H.
  pose proof (IndexByte_range (from buf offset) LF) as Hidx.
  rewrite len_from in Hidx by assumption.
  destruct (Z.eqb_spec (IndexByte (from buf offset) LF) (-1)); [discriminate|].
  destruct Hidx as [|Hidx]; [contradiction|].
  destruct (blank _).
  - destruct resp as [|f resp].
    + apply IH in H; [|lia]. split; [lia|tauto].
    + injection H as <- <-. split; [lia|discriminate].
  - destruct (strconv.Atoi _) as [size|]; [|discriminate].
    destruct (size <? 0); [discriminate|].
    destruct (Z.leb_spec (len buf) (wrap_int (offset + IndexByte (from buf offset) LF + 1 + size)));
      [discriminate|].
    destruct (Z.leb_spec (offset + IndexByte (from buf offset) LF + 1)
                (wrap_int (offset + IndexByte (from buf offset) LF + 1 + size)));
      [|discriminate].
    apply IH in H; [|lia]. split; [lia|tauto].
Qed.

Lemma parse_Resp buf fields n :
  parse buf = Resp fields n -> 0 < n <= len buf /\ 0 < len fields.
Proof.
  intros H. pose proof (parse_eq buf) as Heq. rewrite H in Heq.
  apply parse_loop_Resp in Heq; [|pose proof (len_nonneg buf); lia].
  destruct Heq as [? Hne]. split; [assumption|].
  destruct fields; [contradiction|]. unfold len. cbn [length]. lia.
Qed.

(** An incomplete or malformed buffer is left as it is. *)
Lemma retained_unchanged buf :
  (forall fields n, parse buf <> Resp fields n) -> retained buf (parse buf) = buf.
Proof. intros H. destruct (parse buf); try reflexivity. now destruct (H fields n). Qed.

(* ------------------------------------------------------------------ *)
(** ** [recv] does not depend on how the bytes were chunked *)

(** Reading a run of bytes in one [Read] or in several gives the same
    result; the bytes that one run still holds in [recv_buf] and the other
    has not read yet are the same bytes. *)
Lemma recv_loop_chunks cs : forall buf rs,
  cs <> [] ->
  exists unread,
    fst (fst (recv_loop (map Data cs ++ rs) buf))
      = fst (fst (recv_loop (Data (concat cs) :: rs) buf)) /\
    snd (recv_loop (map Data cs ++ rs) buf)
      = map Data unread ++ snd (recv_loop (Data (concat cs) :: rs) buf) /\
    snd (fst (recv_loop (Data (concat cs) :: rs) buf))
      = snd (fst (recv_loop (map Data cs ++ rs) buf)) ++ concat unread.
Proof.
  induction cs as [|c cs IH]; intros buf rs Hne; [contradiction|].
  destruct cs as [|c' cs].
  { exists []. cbn [map app concat]. rewrite !app_nil_r. auto. }
  specialize (IH (buf ++ c) rs ltac:(discriminate)).
  set (cs' := c' :: cs) in *.
  cbn [map app concat recv_loop].
  cbn [recv_loop] in IH.
  rewrite (app_assoc buf c (concat cs')).
  destruct (parse (buf ++ c)) eqn:Hp.
  - exists cs'. rewrite parse_app, Hp by congruence. cbn. auto.
  - exact IH.
  - destruct (parse_Resp _ _ _ Hp) as [Hn Hf].
    exists cs'. rewrite parse_app, Hp by congruence.
    destruct (Z.ltb_spec 0 (len fields)); [|lia].
    cbn. rewrite from_app by lia. auto.
  - exists cs'. rewrite parse_app, Hp by congruence. cbn. auto.
Qed.

(* ------------------------------------------------------------------ *)
(** ** The connection engine: one attempt, and what follows it *)

Lemma Reconnect_mutex c n : mutex (snd (fst (Reconnect c n))) = mutex c.
Proof.
  unfold Reconnect, Close.
  destruct (open (sock c)); cbn [snd];
    destruct (DialTCP _ n) as [[s|e] n']; cbn; try reflexivity;
    destruct (0 <? len _); reflexivity.
Qed.

Lemma recv_loop_not_Blocked rs : forall buf,
  fst (fst (recv_loop rs buf)) <> Blocked.
Proof.
  induction rs as [|[chunk|e] rs IH]; intros buf; cbn; try discriminate.
  destruct (parse _); cbn; try discriminate; [apply IH|].
  destruct (0 <? len fields); cbn; [discriminate|apply IH].
Qed.

Lemma recv_not_Blocked c n : fst (fst (recv c n)) <> Blocked.
Proof.
  unfold recv. destruct (open (sock c)); [|discriminate].
  pose proof (recv_loop_not_Blocked (reads n) (recv_buf c)) as H.
  destruct (recv_loop _ _) as [[r buf] rs]. exact H.
Qed.

Lemma recv_mutex c n : mutex (snd (fst (recv c n))) = mutex c.
Proof.
  unfold recv. destruct (open (sock c)); [|reflexivity].
  destruct (recv_loop _ _) as [[r buf] rs]. reflexivity.
Qed.

Lemma set_mutex_idem c b : mutex c = b -> set_mutex c b = c.
Proof. destruct c. cbn. now intros ->. Qed.

Lemma set_mutex_twice c b b' : set_mutex (set_mutex c b) b' = set_mutex c b'.
Proof. reflexivity. Qed.

(** A call on a client whose mutex is held parks at [c.lock()]. *)
Lemma Do_fuel_locked fuel c n retries args :
  mutex c = true -> Do_fuel (S fuel) c n retries args = Some (Blocked, c, n).
Proof. intros H. cbn [Do_fuel]. now rewrite H. Qed.

Lemma retry_fuel fuel c n retries args :
  mutex c = true ->
  option_map deferred_unlock
    (let '(_, c, n) := Reconnect c n in Do_fuel (S fuel) c n retries args)
  = Some (retry c n).
Proof.
  intros Hm. unfold retry.
  pose proof (Reconnect_mutex c n) as H.
  destruct (Reconnect c n) as [[e c'] n']. cbn [fst snd] in H.
  rewrite Do_fuel_locked by congruence. reflexivity.
Qed.

Lemma Do_attempt c n retries args :
  mutex c = false -> Do c n retries args = attempt c n retries args.
Proof.
  intros Hm. unfold Do, attempt.
  cbn [Do_fuel]. rewrite Hm.
  destruct (send (set_mutex c true) n args) as [[e|] n1].
  - destruct (Z.ltb_spec retries MAX_RETRIES) as [Hlt|Hge].
    + destruct (negb _); cbn [andb]; [|reflexivity].
      replace (Z.to_nat (MAX_RETRIES - retries)) with (S (Z.to_nat (MAX_RETRIES - retries - 1)))
        by lia.
      pose proof (retry_fuel (Z.to_nat (MAX_RETRIES - retries - 1)) (set_mutex c true) n1
                    (retries + 1) args eq_refl) as H.
      destruct (Reconnect (set_mutex c true) n1) as [[e' c'] n'] eqn:HR.
      rewrite H. reflexivity.
    + rewrite andb_false_r. reflexivity.
  - pose proof (recv_not_Blocked (set_mutex c true) n1) as Hnb.
    pose proof (recv_mutex (set_mutex c true) n1) as Hrm.
    destruct (recv (set_mutex c true) n1) as [[r c2] n2].
    cbn [fst snd] in Hnb, Hrm. cbn [mutex set_mutex] in Hrm.
    destruct r as [[resp err]| |]; [|contradiction|].
    + destruct (Z.ltb_spec retries MAX_RETRIES) as [Hlt|Hge].
      * destruct (bool_decide _); cbn [andb].
        -- replace (Z.to_nat (MAX_RETRIES - retries)) with (S (Z.to_nat (MAX_RETRIES - retries - 1)))
             by lia.
           pose proof (retry_fuel (Z.to_nat (MAX_RETRIES - retries - 1)) c2 n2
                         (retries + 1) args Hrm) as H.
           destruct (Reconnect c2 n2) as [[e' c'] n'] eqn:HR.
           rewrite H. reflexivity.
        -- cbn [deferred_unlock]. rewrite Hrm. reflexivity.
      * rewrite andb_false_r. cbn [deferred_unlock]. rewrite Hrm. reflexivity.
    + cbn [deferred_unlock]. rewrite Hrm. reflexivity.
Qed.

Lemma send_open c n args b :
  encode args = inl b -> open (sock c) = true ->
  send c n args = (hd None (writes n), set_writes n (tl (writes n)) (sent n ++ [b])).
Proof.
  intros He Ho. unfold send, Write. rewrite He, Ho.
  destruct (writes n); reflexivity.
Qed.

Lemma send_closed c n args b :
  encode args = inl b -> open (sock c) = false -> send c n args = (Some ErrClosed, n).
Proof. intros He Ho. unfold send, Write. now rewrite He, Ho. Qed.

Lemma send_bad_request c n args e :
  encode args = inr e -> send c n args = (Some e, n).
Proof. intros He. unfold send. now rewrite He. Qed.

(** The error of the [default] case is the one [Do] looks for. *)
Lemma send_args_error args : forall buf e,
  send_args buf args = inr e -> Contains (Error e) (lit "bad request") = true.
Proof.
  induction args as [|a args IH]; intros buf e; [discriminate|].
  destruct a; cbn [send_args]; try apply IH.
  intros [= <-]. reflexivity.
Qed.

Lemma Reconnect_log c n :
  sent (snd (Reconnect c n)) = sent n /\
  dialed (snd (Reconnect c n)) = dialed n ++ [addr c] /\
  writes (snd (Reconnect c n)) = writes n /\
  reads (snd (Reconnect c n)) = reads n.
Proof.
  unfold Reconnect, Close, DialTCP.
  destruct (open (sock c)); cbn [snd addr set_sock];
    destruct (dials n) as [|[e|] d]; cbn; auto.
Qed.

Lemma Reconnect_dial_ok c n :
  hd None (dials n) = None ->
  fst (fst (Reconnect c n)) = None /\
  open (sock (snd (fst (Reconnect c n)))) = true /\
  recv_buf (snd (fst (Reconnect c n))) = [] /\
  addr (snd (fst (Reconnect c n))) = addr c.
Proof.
  destruct c as [[f o] buf a m]. unfold Reconnect, Close, DialTCP. intros Hd.
  destruct o; cbn [snd addr set_sock sock open];
    destruct (dials n) as [|[e|] d]; try discriminate;
    destruct buf; cbn; auto.
Qed.

Lemma Reconnect_dial_failed c n e :
  hd None (dials n) = Some e ->
  fst (fst (Reconnect c n)) = Some e /\
  open (sock (snd (fst (Reconnect c n)))) = false /\
  recv_buf (snd (fst (Reconnect c n))) = recv_buf c.
Proof.
  unfold Reconnect, Close, DialTCP. intros Hd.
  destruct (open (sock c)) eqn:Ho; cbn [snd addr set_sock];
    destruct (dials n) as [|[e'|] d]; try discriminate; cbn in *; auto.
  all: injection Hd as ->; auto.
Qed.

Lemma retry_log c n :
  fst (fst (retry c n)) = Blocked /\
  snd (fst (retry c n)) = snd (fst (Reconnect c n)) /\
  snd (retry c n) = snd (Reconnect c n).
Proof. unfold retry. destruct (Reconnect c n) as [[e c'] n']. auto. Qed.

(** [recv] hands back the nil response without an error only when
    [parse] returned nil, and then the buffer holds everything that was
    read, still unparsable. *)
Lemma recv_loop_nil rs : forall buf buf' rs',
  recv_loop rs buf = (Returned (None, None), buf', rs') ->
  parse buf' = Nil /\ exists more, buf' = buf ++ more.
Proof.
  induction rs as [|[chunk|e] rs IH]; intros buf buf' rs'; cbn [recv_loop];
    try discriminate.
  destruct (parse (buf ++ chunk)) eqn:Hp.
  - intros [= <- <-]. eauto.
  - intros H. apply IH in H as [? [more ->]]. split; [assumption|].
    exists (chunk ++ more). now rewrite app_assoc.
  - apply parse_Resp in Hp as [_ Hf].
    destruct (Z.ltb_spec 0 (len fields)); [discriminate|lia].
  - discriminate.
Qed.

(* ------------------------------------------------------------------ *)
(** ** Retry, reconnect and the mutex *)

(** C3.  What [Do] does with a failure, on a client whose mutex is free
    and with retries left.  An encoding error (the [bad request] of
    [send]) is returned at once: nothing is written, nothing is dialled,
    the client is unchanged.  A transient failure of the write, or of the
    receive after a good write, makes [Do] call [Reconnect] once, which
    closes the socket, dials [c.addr] again and, when the dial succeeds,
    empties the receive buffer; then [Do] re-enters itself, and the
    nested call parks on the mutex that the outer call still holds: the
    request has been written once and is never written again. *)
Theorem Do_send_failure_parks_without_resend c n retries args :
  mutex c = false ->
  retries < MAX_RETRIES ->
  (forall e, encode args = inr e ->
     Do c n retries args = (Returned (None, Some e), c, n)) /\
  (forall b, encode args = inl b -> open (sock c) = true ->
     ((exists e, hd None (writes n) = Some e /\
                 Contains (Error e) (lit "bad request") = false) \/
      (hd None (writes n) = None /\
       exists resp e,
         fst (fst (recv_loop (reads n) (recv_buf c))) = Returned (resp, Some e))) ->
     fst (fst (Do c n retries args)) = Blocked /\
     mutex (snd (fst (Do c n retries args))) = true /\
     sent (snd (Do c n retries args)) = sent n ++ [b] /\
     dialed (snd (Do c n retries args)) = dialed n ++ [addr c] /\
     (hd None (dials n) = None ->
      open (sock (snd (fst (Do c n retries args)))) = true /\
      recv_buf (snd (fst (Do c n retries args))) = [])).
Proof.
  intros Hm Hr. split.
  - intros e He. rewrite Do_attempt by assumption. unfold attempt.
    rewrite (send_bad_request (set_mutex c true) n args e He).
    rewrite (send_args_error _ _ _ He). cbn [negb andb].
    now rewrite set_mutex_twice, set_mutex_idem.
  - intros b He Ho Hfail. rewrite Do_attempt by assumption. unfold attempt.
    rewrite (send_open (set_mutex c true) n args b He Ho).
    destruct (Z.ltb_spec retries MAX_RETRIES); [|lia].
    assert (forall c1 n1,
              sent n1 = sent n ++ [b] -> dialed n1 = dialed n -> dials n1 = dials n ->
              mutex c1 = true -> addr c1 = addr c ->
              fst (fst (retry c1 n1)) = Blocked /\
              mutex (snd (fst (retry c1 n1))) = true /\
              sent (snd (retry c1 n1)) = sent n ++ [b] /\
              dialed (snd (retry c1 n1)) = dialed n ++ [addr c] /\
              (hd None (dials n) = None ->
               open (sock (snd (fst (retry c1 n1)))) = true /\
               recv_buf (snd (fst (retry c1 n1))) = [])) as Hretry.
    { intros c1 n1 Hs Hd Hdl Hm1 Ha.
      destruct (retry_log c1 n1) as (-> & -> & ->).
      rewrite Reconnect_mutex.
      destruct (Reconnect_log c1 n1) as (-> & -> & _).
      rewrite Hs, Hd, Ha. repeat (split; [easy|]).
      intros Hok. rewrite <- Hdl in Hok.
      destruct (Reconnect_dial_ok c1 n1 Hok) as (_ & -> & -> & _). auto. }
    destruct Hfail as [(e & -> & ->)|(-> & resp & e & Hrecv)].
    + cbn [negb andb]. now apply Hretry.
    + unfold recv. cbn [sock set_mutex reads set_writes recv_buf]. rewrite Ho.
      destruct (recv_loop (reads n) (recv_buf c)) as [[r buf] rs].
      cbn [fst] in Hrecv. subst r.
      rewrite bool_decide_eq_true_2 by discriminate. cbn [andb].
      now apply Hretry.
Qed.

Lemma Do_send_failure_parks_without_resend_witness :
  fst (fst (Do demo_client
              {| writes := [Some broken_pipe]; reads := []; dials := [];
                 sent := []; dialed := [] |}
              0 (Set_args (lit "a") (lit "1")))) = Blocked.
Proof.
  refine (proj1 (proj2 (Do_send_failure_parks_without_resend demo_client _ 0 _ _ _)
                   (lit "3\nset\n1\na\n1\n1\n\n") _ _ _)).
  - reflexivity.
  - unfold MAX_RETRIES. lia.
  - reflexivity.
  - reflexivity.
  - left. exists broken_pipe. split; reflexivity.
Defined.

(** C4.  [Do] does not always return.  When the receive of the first
    attempt fails (an error of [Read], or the deadline with nothing
    read) and retries are left, [Do] re-enters itself while holding
    [c.mutex]; the nested [c.lock()] never returns, the mutex stays held,
    and every later call on the client parks as well. *)
Theorem Do_failed_receive_blocks_forever c n retries args b resp e :
  mutex c = false ->
  open (sock c) = true ->
  retries < MAX_RETRIES ->
  encode args = inl b ->
  hd None (writes n) = None ->
  fst (fst (recv_loop (reads n) (recv_buf c))) = Returned (resp, Some e) ->
  fst (fst (Do c n retries args)) = Blocked /\
  mutex (snd (fst (Do c n retries args))) = true /\
  forall n' retries' args',
    Do (snd (fst (Do c n retries args))) n' retries' args'
    = (Blocked, snd (fst (Do c n retries args)), n').
Proof.
  intros Hm Ho Hr He Hw Hrecv.
  assert (fst (fst (Do c n retries args)) = Blocked /\
          mutex (snd (fst (Do c n retries args))) = true) as [H1 H2].
  { rewrite Do_attempt by assumption. unfold attempt.
    rewrite (send_open (set_mutex c true) n args b He Ho), Hw.
    unfold recv. cbn [sock set_mutex reads set_writes recv_buf]. rewrite Ho.
    destruct (recv_loop (reads n) (recv_buf c)) as [[r buf] rs].
    cbn [fst] in Hrecv. subst r.
    destruct (Z.ltb_spec retries MAX_RETRIES); [|lia].
    rewrite bool_decide_eq_true_2 by discriminate. cbn [andb].
    match goal with |- context [retry ?c ?n] =>
      destruct (retry_log c n) as (-> & -> & _); rewrite Reconnect_mutex end.
    auto. }
  repeat split; try assumption.
  intros n' retries' args'. unfold Do. now rewrite Do_fuel_locked.
Qed.

Lemma Do_failed_receive_blocks_forever_witness :
  fst (fst (Do demo_client silent 0 (Set_args (lit "a") (lit "1")))) = Blocked.
Proof.
  refine (proj1 (Do_failed_receive_blocks_forever demo_client silent 0 _
                   (lit "3\nset\n1\na\n1\n1\n\n") None ErrTimeout _ _ _ _ _ _));
    try reflexivity; unfold MAX_RETRIES; lia.
Defined.

(* ------------------------------------------------------------------ *)
(** ** Length lines *)

Lemma IndexByte_line p rest :
  IndexByte p LF = -1 -> IndexByte (p ++ LF :: rest) LF = len p.
Proof.
  induction p as [|y p IH]; [reflexivity|].
  cbn [IndexByte app]. destruct (Byte.eqb y LF); [discriminate|].
  pose proof (IndexByte_range p LF) as Hr.
  destruct (Z.ltb_spec (IndexByte p LF) 0) as [Hlt|Hge]; [|lia].
  intros _. rewrite IH by lia.
  destruct (Z.ltb_spec (len p) 0); [pose proof (len_nonneg p); lia|].
  unfold len. cbn [length]. lia.
Qed.

Lemma slice_line buf offset p rest :
  from buf offset = p ++ LF :: rest -> slice buf offset (offset + len p) = p.
Proof.
  unfold from, slice, len. intros ->.
  replace (Z.to_nat (offset + Z.of_nat (length p) - offset)) with (length p) by lia.
  now rewrite take_app_length.
Qed.

Lemma wrap_int_small z : minInt <= z <= maxInt -> wrap_int z = z.
Proof.
  unfold wrap_int, minInt, maxInt, intSize. intros H.
  rewrite Z.mod_small; lia.
Qed.

(** Wherever the scan stands, a length line that [Atoi] rejects or reads
    as negative makes [parse] return nil. *)
Lemma parse_loop_bad_length fuel buf offset resp p rest :
  from buf offset = p ++ LF :: rest ->
  IndexByte p LF = -1 ->
  blank p = false ->
  (strconv.Atoi p = None \/ exists z, strconv.Atoi p = Some z /\ z < 0) ->
  parse_loop (S fuel) buf offset resp = Some Nil.
Proof.
  intros Hfrom Hp Hb Hbad. cbn [parse_loop].
  rewrite Hfrom, IndexByte_line by assumption.
  destruct (Z.eqb_spec (len p) (-1)); [pose proof (len_nonneg p); lia|].
  rewrite (slice_line _ _ _ _ Hfrom), Hb.
  destruct Hbad as [->|(z & -> & Hz)]; [reflexivity|].
  destruct (Z.ltb_spec z 0); [reflexivity|lia].
Qed.

(** Wherever the scan stands, a length line [n] with fewer than [n+1]
    bytes behind it ends the call as incomplete, provided the sum
    [offset+size] fits the [int] type. *)
Lemma parse_loop_short fuel buf offset resp p rest n :
  0 <= offset ->
  from buf offset = p ++ LF :: rest ->
  IndexByte p LF = -1 ->
  blank p = false ->
  strconv.Atoi p = Some n ->
  0 <= n ->
  len rest < n + 1 ->
  offset + len p + 1 + n <= maxInt ->
  parse_loop (S fuel) buf offset resp = Some Empty.
Proof.
  intros Ho Hfrom Hp Hb Ha Hn Hrest Hfit. cbn [parse_loop].
  rewrite Hfrom, IndexByte_line by assumption.
  destruct (Z.eqb_spec (len p) (-1)); [pose proof (len_nonneg p); lia|].
  rewrite (slice_line _ _ _ _ Hfrom), Hb, Ha.
  destruct (Z.ltb_spec n 0); [lia|].
  pose proof (len_nonneg p).
  rewrite wrap_int_small by (unfold minInt, maxInt, intSize in *; lia).
  assert (len buf <= offset + len p + 1 + n) as Hlen.
  { assert (len (from buf offset) = len p + 1 + len rest) as Hl.
    { rewrite Hfrom, len_app. unfold len. cbn [length]. lia. }
    unfold from, len in Hl |- *. rewrite length_drop in Hl. unfold len in Hrest. lia. }
  destruct (Z.leb_spec (len buf) (offset + len p + 1 + n)); [reflexivity|lia].
Qed.

(** The same line when the sum does not fit: the guard
    [offset+size >= c.recv_buf.Len()] sees a negative number, lets the
    scan go on, and the slice expression panics. *)
Lemma parse_loop_overflow fuel buf offset resp p rest n :
  0 <= offset ->
  from buf offset = p ++ LF :: rest ->
  IndexByte p LF = -1 ->
  blank p = false ->
  strconv.Atoi p = Some n ->
  0 <= n <= maxInt ->
  maxInt < offset + len p + 1 + n ->
  offset + len p + 1 <= maxInt ->
  parse_loop (S fuel) buf offset resp = Some Panic.
Proof.
  intros Ho Hfrom Hp Hb Ha Hn Hbig Hoff. cbn [parse_loop].
  rewrite Hfrom, IndexByte_line by assumption.
  destruct (Z.eqb_spec (len p) (-1)); [pose proof (len_nonneg p); lia|].
  rewrite (slice_line _ _ _ _ Hfrom), Hb, Ha.
  destruct (Z.ltb_spec n 0); [lia|].
  pose proof (len_nonneg p). pose proof (len_nonneg buf).
  assert (wrap_int (offset + len p + 1 + n) = offset + len p + 1 + n - 2 ^ intSize) as ->.
  { unfold wrap_int, maxInt, intSize in *.
    replace (offset + len p + 1 + n + 2 ^ (64 - 1))
      with (offset + len p + 1 + n - 2 ^ (64 - 1) + 1 * 2 ^ 64) by lia.
    rewrite Z.mod_add by lia. rewrite Z.mod_small; lia. }
  unfold maxInt, intSize in *.
  destruct (Z.leb_spec (len buf) (offset + len p + 1 + n - 2 ^ 64)); [lia|].
  destruct (Z.leb_spec (offset + len p + 1) (offset + len p + 1 + n - 2 ^ 64)); [lia|].
  reflexivity.
Qed.

(* ------------------------------------------------------------------ *)
(** ** The decoder on a length that does not fit *)

(** C1.  The decoder is re-entrant: reading a run of bytes in one
    [Read] or in several gives the same result of [recv], and the bytes
    not yet decoded are the same; what [parse] decided on a buffer (a
    frame, nil, a panic) it decides again when more bytes stand behind
    it; a call that ends as incomplete or as nil removes nothing.  A
    length line [n] with fewer than [n+1] bytes behind it ends the call as
    incomplete as long as [offset+n] fits the [int] type.  When it does
    not fit, the claim fails: [9223372036854775807] is a valid [int], any
    number of bytes behind it is too few, yet [offset+size] wraps to a
    negative number, the guard [offset+size >= c.recv_buf.Len()] does not
    fire, and the slice [buf[offset : offset+size]] panics; the panic goes
    through [recv] and [Do] to the caller. *)
Theorem parse_length_overflow_panics :
  (forall cs buf rs,
     cs <> [] ->
     exists unread,
       fst (fst (recv_loop (map Data cs ++ rs) buf))
         = fst (fst (recv_loop (Data (concat cs) :: rs) buf)) /\
       snd (recv_loop (map Data cs ++ rs) buf)
         = map Data unread ++ snd (recv_loop (Data (concat cs) :: rs) buf) /\
       snd (fst (recv_loop (Data (concat cs) :: rs) buf))
         = snd (fst (recv_loop (map Data cs ++ rs) buf)) ++ concat unread) /\
  (forall buf more, parse buf <> Empty -> parse (buf ++ more) = parse buf) /\
  (forall buf, parse buf = Empty \/ parse buf = Nil -> retained buf (parse buf) = buf) /\
  (forall fuel buf offset resp p rest n,
     0 <= offset ->
     from buf offset = p ++ LF :: rest ->
     IndexByte p LF = -1 ->
     blank p = false ->
     strconv.Atoi p = Some n ->
     0 <= n ->
     len rest < n + 1 ->
     offset + len p + 1 + n <= maxInt ->
     parse_loop (S fuel) buf offset resp = Some Empty) /\
  (forall payload, parse (huge_length ++ payload) = Panic) /\
  fst (fst (Do demo_client
              {| writes := []; reads := [Data huge_length]; dials := [];
                 sent := []; dialed := [] |}
              0 (Set_args (lit "a") (lit "1")))) = Panicked.
Proof.
  split; [intros; now apply recv_loop_chunks|].
  split; [intros; now apply parse_app|].
  split; [intros buf [->| ->]; reflexivity|].
  split; [intros; eapply parse_loop_short; eassumption|].
  split; [|vm_compute; reflexivity].
  intros payload.
  assert (parse huge_length = Panic) as H by (vm_compute; reflexivity).
  rewrite parse_app; [assumption|]. rewrite H. discriminate.
Qed.

(** The response [ok] cut inside its length line, inside its payload and
    before the closing empty line. *)
Lemma parse_length_overflow_panics_witness :
  fst (fst (recv_loop
              (map Data [lit "2"; lit "\no"; lit "k\n"; lit "\n"] ++ []) []))
  = Returned (Some [lit "ok"], None).
Proof.
  destruct (proj1 parse_length_overflow_panics
              [lit "2"; lit "\no"; lit "k\n"; lit "\n"] [] [] ltac:(discriminate))
    as (unread & H & _).
  exact (eq_trans H eq_refl).
Defined.

(* ------------------------------------------------------------------ *)
(** ** A length line that does not parse *)

(** C6 (as the code has it).  When [parse] meets a length line that
    [strconv.Atoi] rejects or reads as negative it returns nil, wherever
    the scan stands.  [recv] then returns the nil response with a nil
    error, and [Do] returns that pair to its caller at once: no retry, no
    [Reconnect], the socket as it was, and the receive buffer kept with
    everything read so far, which [parse] will reject again.  The typed
    operations ([Set] and its like) turn the nil response into
    [ErrBadResponse]. *)
Theorem malformed_length_is_returned_as_nil c n retries args b buf' rs' :
  mutex c = false ->
  open (sock c) = true ->
  encode args = inl b ->
  hd None (writes n) = None ->
  recv_loop (reads n) (recv_buf c) = (Returned (None, None), buf', rs') ->
  Do c n retries args
    = (Returned (None, None), set_recv_buf c buf',
       set_reads (set_writes n (tl (writes n)) (sent n ++ [b])) rs') /\
  parse buf' = Nil /\
  (exists more, buf' = recv_buf c ++ more) /\
  (forall more, parse (buf' ++ more) = Nil) /\
  decode_ok (None, None) = (false, Some ErrBadResponse) /\
  (forall fuel buf offset resp p rest,
     from buf offset = p ++ LF :: rest ->
     IndexByte p LF = -1 ->
     blank p = false ->
     (strconv.Atoi p = None \/ exists z, strconv.Atoi p = Some z /\ z < 0) ->
     parse_loop (S fuel) buf offset resp = Some Nil).
Proof.
  intros Hm Ho He Hw Hrecv.
  destruct (recv_loop_nil _ _ _ _ Hrecv) as [Hnil Hmore].
  repeat split; try assumption.
  - rewrite Do_attempt by assumption. unfold attempt.
    rewrite (send_open (set_mutex c true) n args b He Ho), Hw.
    unfold recv. cbn [sock set_mutex reads set_writes recv_buf]. rewrite Ho, Hrecv.
    cbn [bool_decide]. rewrite bool_decide_eq_false_2 by (intros H; now apply H).
    cbn [andb]. f_equal. f_equal. destruct c; cbn in *; subst; reflexivity.
  - intros more. rewrite parse_app; [assumption|congruence].
  - intros. eapply parse_loop_bad_length; eassumption.
Qed.

Lemma malformed_length_is_returned_as_nil_witness :
  Do demo_client garbage_reply 0 (Set_args (lit "a") (lit "1"))
  = (Returned (None, None), set_recv_buf demo_client (lit "x\n"),
     set_reads (set_writes garbage_reply [] [lit "3\nset\n1\na\n1\n1\n\n"]) []).
Proof.
  exact (proj1 (malformed_length_is_returned_as_nil demo_client garbage_reply 0
                  (Set_args (lit "a") (lit "1")) (lit "3\nset\n1\na\n1\n1\n\n")
                  (lit "x\n") [] eq_refl eq_refl eq_refl eq_refl eq_refl)).
Defined.

(** C6 as stated fails: the length line [x] is answered with the nil
    response and no error, the bytes stay in the buffer, and nothing is
    dialled. *)
Lemma malformed_length_not_transient :
  let r := Do demo_client garbage_reply 0 (Set_args (lit "a") (lit "1")) in
  fst (fst r) = Returned (None, None) /\
  recv_buf (snd (fst r)) = lit "x\n" /\
  sock (snd (fst r)) = sock demo_client /\
  dialed (snd r) = [] /\
  sent (snd r) = [lit "3\nset\n1\na\n1\n1\n\n"].
Proof. vm_compute. repeat split. Qed.

(* ------------------------------------------------------------------ *)
(** ** After [Close] *)

(** C8 (as the code has it).  [Close] closes the socket and records
    nothing else.  The next [Do] finds the socket closed, writes nothing,
    takes the error for a transient one and calls [Reconnect], which
    dials [c.addr] again; when that dial succeeds the client holds an
    open socket once more, and no closed-connection error is returned. *)
Theorem Do_after_Close_reconnects c n args b :
  mutex c = false ->
  open (sock c) = true ->
  encode args = inl b ->
  open (sock (snd (Close c))) = false /\
  sent (snd (Do (snd (Close c)) n 0 args)) = sent n /\
  dialed (snd (Do (snd (Close c)) n 0 args)) = dialed n ++ [addr c] /\
  (hd None (dials n) = None ->
   open (sock (snd (fst (Do (snd (Close c)) n 0 args)))) = true /\
   forall resp, fst (fst (Do (snd (Close c)) n 0 args)) <> Returned (resp, Some ErrClosed)).
Proof.
  intros Hm Ho He. unfold Close. rewrite Ho. cbn [snd].
  set (c1 := set_sock c _).
  assert (Do c1 n 0 args = retry (set_mutex c1 true) n) as ->.
  { rewrite Do_attempt by assumption. unfold attempt.
    rewrite (send_closed (set_mutex c1 true) n args b He eq_refl). reflexivity. }
  destruct (retry_log (set_mutex c1 true) n) as (-> & -> & ->).
  destruct (Reconnect_log (set_mutex c1 true) n) as (-> & -> & _).
  split; [reflexivity|]. split; [reflexivity|]. split; [reflexivity|].
  intros Hd.
  destruct (Reconnect_dial_ok (set_mutex c1 true) n Hd) as (_ & -> & _).
  split; [reflexivity|discriminate].
Qed.

Lemma Do_after_Close_reconnects_witness :
  open (sock (snd (fst (Do (snd (Close demo_client)) silent 0
                          (Set_args (lit "a") (lit "1")))))) = true.
Proof.
  refine (proj1 (proj2 (proj2 (proj2
            (Do_after_Close_reconnects demo_client silent _
               (lit "3\nset\n1\na\n1\n1\n\n") _ _ _))) _));
    reflexivity.
Defined.

(** C8 as stated fails: after [Close], [Set] on a reachable server does
    not return an error at all, and the client is connected again. *)
Lemma closed_client_reconnects :
  let r := Do (snd (Close demo_client)) silent 0 (Set_args (lit "a") (lit "1")) in
  ~ (exists resp e, fst (fst r) = Returned (resp, Some e)) /\
  open (sock (snd (fst r))) = true /\
  dialed (snd r) = [demo_addr].
Proof.
  vm_compute. repeat split. intros (resp & e & H). discriminate.
Qed.

(* ------------------------------------------------------------------ *)
(** ** The encoder against the wire format *)

Lemma write_block_frame buf s : write_block buf s = buf ++ frame s.
Proof. unfold write_block, frame. now rewrite <- !app_assoc. Qed.

Lemma write_blocks_frames l : forall buf,
  write_blocks buf l = buf ++ concat (map frame l).
Proof.
  induction l as [|s l IH]; intros buf; cbn [write_blocks fold_left map concat].
  - now rewrite app_nil_r.
  - fold (write_blocks (write_block buf s) l).
    now rewrite IH, write_block_frame, <- app_assoc.
Qed.

Lemma send_args_frames args : forall buf,
  Forall supported args ->
  send_args buf args = inl (buf ++ request args).
Proof.
  unfold request.
  induction args as [|a args IH]; intros buf Hs; [reflexivity|].
  inversion Hs as [|? ? Ha Hargs]; subst.
  cbn [map concat]. rewrite map_app, concat_app.
  destruct a as [s|b|l|t z|f|[]| |v]; cbn [send_args texts map concat];
    try contradiction;
    rewrite ?write_block_frame, ?write_blocks_frames, IH by assumption;
    now rewrite ?app_nil_r, <- ?app_assoc.
Qed.

(** C7.  For arguments of the supported types, [send] hands to the
    socket exactly the frames of the values in order (a [[]string]
    contributing one frame per element, booleans as [1]/[0], integers and
    floats in the text of [%d] and [%f], nil as an empty frame) followed
    by one empty line.  [set("a","1")] is [3\nset\n1\na\n1\n1\n\n], and
    [Set] turns a response whose first field is [ok] into success. *)
Theorem encode_is_framed_request args :
  Forall supported args ->
  encode args = inl (request args) /\
  (forall c n, send c n args = Write (sock c) n (request args)) /\
  encode (Set_args (lit "a") (lit "1")) = inl (lit "3\nset\n1\na\n1\n1\n\n") /\
  decode_ok (Some [lit "ok"], None) = (true, None) /\
  fst (fst (Client_Set demo_client
              {| writes := []; reads := [Data (lit "2\nok\n\n")]; dials := [];
                 sent := []; dialed := [] |}
              (lit "a") (lit "1"))) = Returned (true, None).
Proof.
  intros Hs.
  assert (encode args = inl (request args)) as He
    by (unfold encode; now rewrite send_args_frames).
  split; [assumption|]. split; [|repeat split; vm_compute; reflexivity].
  intros c n. unfold send. now rewrite He.
Qed.

Lemma encode_is_framed_request_witness :
  encode mixed_args
  = inl (lit "3\ncmd\n2\nk1\n2\nk2\n2\n-7\n1\n1\n0\n\n3\nraw\n8\n1.500000\n\n").
Proof.
  refine (eq_trans (proj1 (encode_is_framed_request mixed_args _)) _).
  - repeat constructor.
  - vm_compute. reflexivity.
Defined.

(* ------------------------------------------------------------------ *)
(** ** [MultiHDel] *)

Lemma append_strings_app ks : forall args,
  append_strings args ks = args ++ map AString ks.
Proof.
  induction ks as [|k ks IH]; intros args; cbn [append_strings fold_left map].
  - now rewrite app_nil_r.
  - fold (append_strings (args ++ [AString k]) ks).
    now rewrite IH, <- app_assoc.
Qed.

Lemma Forall_supported_strings ks : Forall supported (map AString ks).
Proof. induction ks; constructor; [exact I|assumption]. Qed.

(** C10.  [MultiHDel(key, fieldList)] with a non-empty field list builds
    the argument list [multi_del, key, fields...], the very list that
    [MultiDel(key, fields...)] builds: the bytes written are the same
    and begin with the frame of [multi_del], and the two calls leave the
    client and the network in the same state. *)
Theorem MultiHDel_sends_multi_del c n key fieldList :
  fieldList <> [] ->
  MultiHDel_args key fieldList = MultiDel_args (key :: fieldList) /\
  encode (MultiHDel_args key fieldList) = encode (MultiDel_args (key :: fieldList)) /\
  (exists rest,
     encode (MultiHDel_args key fieldList) = inl (lit "9\nmulti_del\n" ++ rest)) /\
  snd (MultiHDel c n key fieldList) = snd (MultiDel c n (key :: fieldList)) /\
  snd (fst (MultiHDel c n key fieldList)) = snd (fst (MultiDel c n (key :: fieldList))).
Proof.
  intros Hne.
  assert (MultiHDel_args key fieldList = MultiDel_args (key :: fieldList)) as Hargs.
  { unfold MultiHDel_args, MultiDel_args. now rewrite !append_strings_app. }
  split; [assumption|]. split; [now rewrite Hargs|]. split.
  - unfold MultiHDel_args, encode. rewrite append_strings_app.
    rewrite send_args_frames.
    + eexists. cbn [app]. unfold request. cbn [map concat texts app].
      rewrite <- app_assoc. reflexivity.
    + repeat constructor. apply Forall_supported_strings.
  - unfold MultiHDel, MultiDel, call.
    destruct (Z.eqb_spec (len fieldList) 0) as [H0|_].
    { destruct fieldList; [contradiction|]. unfold len in H0. cbn in H0. lia. }
    rewrite Hargs.
    destruct (Do c n 0 (MultiDel_args (key :: fieldList))) as [[[r| |] c'] n'];
      auto.
Qed.

Lemma MultiHDel_sends_multi_del_witness :
  sent (snd (MultiHDel demo_client silent (lit "h") [lit "f1"; lit "f2"]))
  = sent (snd (MultiDel demo_client silent [lit "h"; lit "f1"; lit "f2"])).
Proof.
  refine (f_equal sent (proj1 (proj2 (proj2 (proj2
            (MultiHDel_sends_multi_del demo_client silent (lit "h")
               [lit "f1"; lit "f2"] _)))))).
  discriminate.
Defined.

(* ------------------------------------------------------------------ *)
(** ** Key placement *)

Lemma Sum_length k : length (sha1.Sum k) = 20%nat.
Proof.
  unfold sha1.Sum. destruct (sha1.blocks _ _ _) as [[[[h0 h1] h2] h3] h4].
  reflexivity.
Qed.

Lemma byte_val_range b : 0 <= sha1.byte_val b < 256.
Proof.
  unfold sha1.byte_val. pose proof (Byte.to_N_bounded b). lia.
Qed.

Lemma land_low_high a b :
  0 <= a < 256 -> Z.land a (b * 2 ^ 8) = 0.
Proof.
  intros Ha. apply Z.bits_inj'; intros i Hi.
  rewrite Z.land_spec, Z.bits_0.
  destruct (Z.lt_ge_cases i 8).
  - rewrite Z.mul_pow2_bits_low by lia. apply andb_false_r.
  - destruct (Z.eq_dec a 0) as [->|]; [now rewrite Z.bits_0|].
    rewrite (Z.bits_above_log2 a i); [reflexivity|lia|].
    apply Z.lt_le_trans with 8; [apply Z.log2_lt_pow2; lia|lia].
Qed.

Lemma lor_low_high a b :
  0 <= a < 256 -> 0 <= b -> Z.lor a (Z.shiftl b 8) = a + 256 * b.
Proof.
  intros Ha Hb. rewrite Z.shiftl_mul_pow2 by lia.
  replace (a + 256 * b) with (a + b * 2 ^ 8) by lia.
  rewrite Z.add_nocarry_lxor by now apply land_low_high.
  symmetry. apply Z.lxor_lor. now apply land_low_high.
Qed.

(** [locate] in closed form: the digest number modulo the shard count as
    a [uint16]. *)
Lemma locate_eq c k :
  Cluster.locate c k =
  if Cluster.uint16 (len (Cluster.shards c)) =? 0 then Panicked
  else Returned (le16 (sha1.Sum k) mod Cluster.uint16 (len (Cluster.shards c))).
Proof.
  unfold Cluster.locate, le16.
  pose proof (Sum_length k) as Hl.
  destruct (sha1.Sum k) as [|s0 [|s1 rest]]; try discriminate.
  pose proof (byte_val_range s0). pose proof (byte_val_range s1).
  unfold Cluster.uint16.
  rewrite Z.shiftl_0_r, !(Z.mod_small (sha1.byte_val _) 65536) by lia.
  rewrite (Z.mod_small (Z.shiftl _ 8))
    by (rewrite Z.shiftl_mul_pow2 by lia; change (2 ^ 8) with 256; lia).
  rewrite lor_low_high by lia. reflexivity.
Qed.

(** C5 (as the code has it).  On a table of 1 to 65535 shards, [locate]
    returns the SHA-1 digest of the key, its first two bytes read as a
    little-endian 16-bit number, modulo the shard count; the index is
    below the shard count, and it depends on nothing but the key and the
    number of shards. *)
Theorem locate_is_digest_mod_count c k :
  1 <= len (Cluster.shards c) <= 65535 ->
  Cluster.locate c k = Returned (le16 (sha1.Sum k) mod len (Cluster.shards c)) /\
  0 <= le16 (sha1.Sum k) mod len (Cluster.shards c) < len (Cluster.shards c) /\
  forall c', len (Cluster.shards c') = len (Cluster.shards c) ->
             Cluster.locate c' k = Cluster.locate c k.
Proof.
  intros Hn. rewrite locate_eq. unfold Cluster.uint16.
  rewrite Z.mod_small by lia.
  destruct (Z.eqb_spec (len (Cluster.shards c)) 0); [lia|].
  split; [reflexivity|]. split; [apply Z.mod_pos_bound; lia|].
  intros c' Hc'. rewrite locate_eq, Hc'. unfold Cluster.uint16.
  rewrite Z.mod_small by lia.
  destruct (Z.eqb_spec (len (Cluster.shards c)) 0); [lia|reflexivity].
Qed.

Lemma locate_is_digest_mod_count_witness :
  Cluster.locate (table 3) (lit "b") = Returned (le16 (sha1.Sum (lit "b")) mod 3).
Proof.
  refine (proj1 (locate_is_digest_mod_count (table 3) (lit "b") _)).
  vm_compute. split; discriminate.
Defined.

(** C5 as stated fails beyond 65535 shards: with 65536 shards [locate]
    panics on the division by [uint16(65536) = 0], and with 65537 shards
    it reduces modulo 1 instead of modulo 65537. *)
Lemma locate_wide_table :
  Cluster.locate (table 65536) (lit "a") = Panicked /\
  Cluster.locate (table 65537) (lit "a") = Returned 0 /\
  le16 (sha1.Sum (lit "a")) mod len (Cluster.shards (table 65537)) = 63366.
Proof. vm_compute. repeat split. Qed.

(** Truncating the shard count to 16 bits never makes it larger, and from
    65536 shards on it drops at least 65536 of them. *)
Lemma uint16_len_le {A} (l : list A) :
  Cluster.uint16 (len l) <= len l /\
  (65536 <= len l -> Cluster.uint16 (len l) <= len l - 65536).
Proof.
  pose proof (len_nonneg l) as H0. unfold Cluster.uint16.
  pose proof (Z.mod_pos_bound (len l) 65536 ltac:(lia)) as Hm.
  pose proof (Z.div_mod (len l) 65536 ltac:(lia)) as Hd.
  split.
  - apply Z.mod_le; lia.
  - intros Hn.
    assert (1 <= len l / 65536) by (apply Z.div_le_lower_bound; lia).
    lia.
Qed.

(** C9 (as the code has it).  [locate] divides by
    [uint16(len(c.shards))].  It panics exactly when that number is
    zero: with no shards, and again with 65536 of them, so a non-empty
    table is needed but is not enough.  On every other table it returns,
    and the index it returns is inside the table, for 1 to 65535 shards
    and beyond: the index is below the count truncated to 16 bits, which
    is never above the count.  What the truncation costs from 65536
    shards on is reach, not safety: the index stays 65536 below the
    count, so the last 65536 shards are never chosen. *)
Theorem locate_panics_iff_truncated_count_zero c k :
  (Cluster.locate c k = Panicked <-> Cluster.uint16 (len (Cluster.shards c)) = 0) /\
  (Cluster.shards c = [] -> Cluster.locate c k = Panicked) /\
  (len (Cluster.shards c) = 65536 -> Cluster.locate c k = Panicked) /\
  (Cluster.uint16 (len (Cluster.shards c)) <> 0 ->
   exists pos, Cluster.locate c k = Returned pos /\ 0 <= pos < len (Cluster.shards c)) /\
  (1 <= len (Cluster.shards c) <= 65535 ->
   exists pos, Cluster.locate c k = Returned pos /\ 0 <= pos < len (Cluster.shards c)) /\
  (forall pos, Cluster.locate c k = Returned pos ->
               0 <= pos < Cluster.uint16 (len (Cluster.shards c)) /\
               pos < len (Cluster.shards c) /\
               (65536 <= len (Cluster.shards c) -> pos + 65536 < len (Cluster.shards c))).
Proof.
  rewrite locate_eq.
  pose proof (Z.mod_pos_bound (len (Cluster.shards c)) 65536 ltac:(lia)) as Hu.
  fold (Cluster.uint16 (len (Cluster.shards c))) in Hu.
  destruct (uint16_len_le (Cluster.shards c)) as [Hle Hdrop].
  split; [|split; [|split; [|split; [|split]]]].
  - destruct (Z.eqb_spec (Cluster.uint16 (len (Cluster.shards c))) 0); split;
      intros; congruence.
  - intros ->. reflexivity.
  - intros ->. reflexivity.
  - intros Hm.
    destruct (Z.eqb_spec (Cluster.uint16 (len (Cluster.shards c))) 0); [contradiction|].
    eexists; split; [reflexivity|].
    pose proof (Z.mod_pos_bound (le16 (sha1.Sum k))
                  (Cluster.uint16 (len (Cluster.shards c))) ltac:(lia)).
    lia.
  - intros Hn. unfold Cluster.uint16 in *. rewrite Z.mod_small in * by lia.
    destruct (Z.eqb_spec (len (Cluster.shards c)) 0); [lia|].
    eexists; split; [reflexivity|]. apply Z.mod_pos_bound. lia.
  - intros pos.
    destruct (Z.eqb_spec (Cluster.uint16 (len (Cluster.shards c))) 0); [discriminate|].
    intros [= <-].
    pose proof (Z.mod_pos_bound (le16 (sha1.Sum k))
                  (Cluster.uint16 (len (Cluster.shards c))) ltac:(lia)).
    split; [assumption|]. split; [lia|]. intros Hn. specialize (Hdrop Hn). lia.
Qed.

Lemma locate_panics_iff_truncated_count_zero_witness :
  Cluster.locate (table 0) (lit "a") = Panicked /\
  (exists pos, Cluster.locate (table 3) (lit "a") = Returned pos /\
               0 <= pos < len (Cluster.shards (table 3))) /\
  (exists pos, Cluster.locate (table 65537) (lit "a") = Returned pos /\
               0 <= pos < len (Cluster.shards (table 65537))).
Proof.
  split; [|split].
  - exact (proj1 (proj2 (locate_panics_iff_truncated_count_zero (table 0) (lit "a")))
             eq_refl).
  - refine (proj1 (proj2 (proj2 (proj2 (proj2
              (locate_panics_iff_truncated_count_zero (table 3) (lit "a")))))) _).
    vm_compute. split; discriminate.
  - refine (proj1 (proj2 (proj2 (proj2
              (locate_panics_iff_truncated_count_zero (table 65537) (lit "a"))))) _).
    vm_compute. discriminate.
Defined.

(** C9 as stated fails beyond 65535 shards: a table of 65537 shards is
    outside 1 to 65535, yet [locate] returns on it for every key, and the
    index it returns, 0, is inside the table. *)
Lemma locate_in_range_beyond_65535 :
  ~ (1 <= len (Cluster.shards (table 65537)) <= 65535) /\
  Cluster.locate (table 65537) (lit "a") = Returned 0 /\
  0 <= 0 < len (Cluster.shards (table 65537)) /\
  (forall key, Cluster.locate (table 65537) key = Returned 0).
Proof.
  assert (Hn : len (Cluster.shards (table 65537)) = 65537)
    by (vm_compute; reflexivity).
  assert (Hall : forall key, Cluster.locate (table 65537) key = Returned 0).
  { intros key. rewrite locate_eq, Hn.
    change (Cluster.uint16 65537) with 1. cbn [Z.eqb Pos.eqb].
    now rewrite Z.mod_1_r. }
  rewrite Hn. split; [lia|]. split; [apply Hall|]. split; [lia|exact Hall].
Qed.

(* ------------------------------------------------------------------ *)
(** ** Bulk operations *)

Lemma collect_omap pairs : forall ps, Cluster.collect ps pairs = ps ++ omap id pairs.
Proof.
  induction pairs as [|[p|] pairs IH]; intros ps; cbn.
  - now rewrite app_nil_r.
  - fold (Cluster.collect (ps ++ [p]) pairs). rewrite IH, <- app_assoc. reflexivity.
  - apply IH.
Qed.

Lemma fold_collect msgs : forall ps,
  fold_left Cluster.collect msgs ps = ps ++ concat (map (omap id) msgs).
Proof.
  induction msgs as [|m msgs IH]; intros ps; cbn [fold_left map concat].
  - now rewrite app_nil_r.
  - now rewrite IH, collect_omap, <- app_assoc.
Qed.

Lemma gather_from {A B} (f : A -> B) parts ids : forall acc,
  fold_left
    (fun acc id => if 0 <=? id then acc ++ map f (default [] (parts !! id)) else acc)
    ids acc
  = acc ++ concat (map (fun id => if 0 <=? id then map f (part parts id) else []) ids).
Proof.
  induction ids as [|id ids IH]; intros acc; cbn [fold_left map concat].
  - now rewrite app_nil_r.
  - rewrite IH. unfold part. destruct (0 <=? id); [now rewrite <- app_assoc|reflexivity].
Qed.

Lemma gather_concat {A B} (f : A -> B) parts ids :
  Cluster.gather f parts ids
  = concat (map (fun id => if 0 <=? id then map f (part parts id) else []) ids).
Proof. unfold Cluster.gather. now rewrite gather_from. Qed.

Lemma flag_worker_fst {A} (sub : Z -> list A -> bool * option error) parts i :
  fst (Cluster.flag_worker sub parts i) = if succeeded sub parts i then i else -1.
Proof.
  unfold Cluster.flag_worker, succeeded, part.
  destruct (sub i _) as [[] []]; reflexivity.
Qed.

Lemma flag_worker_snd {A} (sub : Z -> list A -> bool * option error) parts i :
  snd (Cluster.flag_worker sub parts i) = snd (sub i (part parts i)).
Proof.
  unfold Cluster.flag_worker, part.
  destruct (sub i _) as [[] []]; reflexivity.
Qed.

Lemma gather_arrival {A B} (f : A -> B) (sub : Z -> list A -> bool * option error)
    parts arrival :
  Forall (fun i => 0 <= i) arrival ->
  Cluster.gather f parts (map (fun i => fst (Cluster.flag_worker sub parts i)) arrival)
  = concat (map (fun i => if succeeded sub parts i then map f (part parts i) else [])
              arrival).
Proof.
  intros Hpos. rewrite gather_concat, map_map. f_equal.
  induction Hpos as [|i arrival Hi _ IH]; [reflexivity|].
  cbn [map]. rewrite IH, flag_worker_fst. f_equal.
  destruct (succeeded sub parts i); [|reflexivity].
  destruct (Z.leb_spec 0 i); [reflexivity|lia].
Qed.

Lemma last_store_from {A} (sub : Z -> list A -> bool * option error) parts stores :
  forall err,
    fold_left
      (fun err idx => match snd (Cluster.flag_worker sub parts idx) with
                      | Some e => Some e
                      | None => err
                      end)
      stores err = None
    <-> err = None /\ Forall (fun i => snd (sub i (part parts i)) = None) stores.
Proof.
  induction stores as [|i stores IH]; intros err; cbn [fold_left].
  - split; [auto|tauto].
  - rewrite IH, flag_worker_snd. rewrite Forall_cons.
    destruct (snd (sub i (part parts i))); split; intros H; try tauto;
      destruct H as [H ?]; try discriminate; destruct H; discriminate.
Qed.

Lemma last_store_None {A} (sub : Z -> list A -> bool * option error) parts stores :
  Cluster.last_store sub parts stores = None
  <-> Forall (fun i => snd (sub i (part parts i)) = None) stores.
Proof. unfold Cluster.last_store. rewrite last_store_from. tauto. Qed.

Lemma get_worker_not_found_on_error sub parts i :
  Cluster.get_worker (not_found_on_error sub) parts i = Cluster.get_worker sub parts i.
Proof.
  unfold Cluster.get_worker, not_found_on_error.
  destruct (sub i _) as [[ps|] [e|]]; reflexivity.
Qed.

Lemma len_nonempty {A} (l : list A) : l <> [] -> (len l =? 0) = false.
Proof.
  intros H. destruct l; [contradiction|]. unfold len. cbn [length].
  apply Z.eqb_neq. lia.
Qed.

(** C2 (as the code has it).  Every bulk operation merges the
    sub-results in the order in which the workers' messages arrive on the
    channel; a shard whose sub-request failed contributes nothing.
    [MultiSet] and [MultiDel] return, besides the keys of the shards that
    succeeded, an error that is nil exactly when no worker stored one.
    [MultiGet] returns the pairs only: its result is the same when every
    failing shard is replaced by one that answers without error and holds
    none of the keys. *)
Theorem bulk_results_in_arrival_order c arrival stores :
  Forall (fun i => 0 <= i) arrival ->
  (forall sub ks parts,
     ks <> [] -> Cluster.locateKeys c ks = Returned parts ->
     Cluster.MultiGet c sub arrival ks
       = Returned (concat (map (fun i => omap id (Cluster.get_worker sub parts i)) arrival)) /\
     Cluster.MultiGet c (not_found_on_error sub) arrival ks
       = Cluster.MultiGet c sub arrival ks) /\
  (forall sub ks parts,
     ks <> [] -> Cluster.locateKeys c ks = Returned parts ->
     exists err,
       Cluster.MultiDel c sub arrival stores ks
         = Returned (concat (map (fun i => if succeeded sub parts i
                                           then part parts i else []) arrival), err) /\
       (err = None <-> Forall (fun i => snd (sub i (part parts i)) = None) stores)) /\
  (forall sub ps parts,
     ps <> [] -> Cluster.locatePairs c ps = Returned parts ->
     exists err,
       Cluster.MultiSet c sub arrival stores ps
         = Returned (concat (map (fun i => if succeeded sub parts i
                                           then map Cluster.key_of (part parts i)
                                           else []) arrival), err) /\
       (err = None <-> Forall (fun i => snd (sub i (part parts i)) = None) stores)).
Proof.
  intros Hpos. split; [|split].
  - intros sub ks parts Hne Hparts.
    assert (forall sub', Cluster.MultiGet c sub' arrival ks
              = Returned (concat (map (fun i => omap id (Cluster.get_worker sub' parts i))
                                    arrival))) as H.
    { intros sub'. unfold Cluster.MultiGet.
      rewrite len_nonempty, Hparts by assumption.
      now rewrite fold_collect, map_map. }
    split; [apply H|]. rewrite !H. do 2 f_equal.
    apply map_ext. intros i. now rewrite get_worker_not_found_on_error.
  - intros sub ks parts Hne Hparts. eexists. split.
    + unfold Cluster.MultiDel. rewrite len_nonempty, Hparts by assumption.
      rewrite gather_arrival by assumption. do 3 f_equal.
      apply map_ext. intros i. destruct (succeeded sub parts i); [apply map_id|reflexivity].
    + apply last_store_None.
  - intros sub ps parts Hne Hparts. eexists. split.
    + unfold Cluster.MultiSet. rewrite len_nonempty, Hparts by assumption.
      now rewrite gather_arrival.
    + apply last_store_None.
Qed.

Lemma bulk_results_in_arrival_order_witness :
  Cluster.MultiGet (table 3) shard2_down [1; 0; 2] abj
  = Returned [NewKVPair (lit "b") (AString (lit "v"));
              NewKVPair (lit "a") (AString (lit "v"))].
Proof.
  refine (eq_trans (proj1 (proj1 (bulk_results_in_arrival_order (table 3) [1; 0; 2] [] _)
                             shard2_down abj
                             (<[2 := [lit "j"]]> (<[1 := [lit "b"]]> (<[0 := [lit "a"]]> ∅)))
                             _ _)) _).
  - repeat constructor; lia.
  - discriminate.
  - vm_compute. reflexivity.
  - vm_compute. reflexivity.
Defined.

(** C2 as stated fails.  With shard 2 unreachable, [MultiGet] returns
    what it returns when shard 2 is reachable and holds no such key; and
    the pairs come in the order of arrival, here shard 1 before
    shard 0. *)
Lemma MultiGet_hides_failed_shard :
  snd (shard2_down 2 [lit "j"]) = Some ErrTimeout /\
  snd (shard2_empty 2 [lit "j"]) = None /\
  Cluster.MultiGet (table 3) shard2_down [0; 1; 2] abj
    = Cluster.MultiGet (table 3) shard2_empty [0; 1; 2] abj /\
  Cluster.MultiGet (table 3) shard2_down [1; 0; 2] abj
    = Returned [NewKVPair (lit "b") (AString (lit "v"));
                NewKVPair (lit "a") (AString (lit "v"))].
Proof. vm_compute. repeat split. Qed.

(* ------------------------------------------------------------------ *)
(** ** The second client file: [Do] without the mutex *)

Lemma send_log c n args :
  (length (sent (snd (send c n args))) <= S (length (sent n)))%nat /\
  dialed (snd (send c n args)) = dialed n.
Proof.
  unfold send, Write. destruct (encode args); [|auto].
  destruct (open (sock c)); [|auto].
  destruct (writes n); cbn; rewrite length_app; cbn; split; (lia || reflexivity).
Qed.

Lemma Unlocked_recv_log c n :
  sent (snd (Unlocked.recv c n)) = sent n /\
  dialed (snd (Unlocked.recv c n)) = dialed n.
Proof.
  unfold Unlocked.recv. destruct (open (sock c)); [|auto].
  destruct (Unlocked.recv_loop _ _) as [[r buf] rs]. auto.
Qed.

Lemma Unlocked_Reconnect_log c n :
  sent (snd (Unlocked.Reconnect c n)) = sent n /\
  length (dialed (snd (Unlocked.Reconnect c n))) = S (length (dialed n)).
Proof.
  unfold Unlocked.Reconnect, DialTCP.
  destruct (dials n) as [|[e|] d]; cbn; rewrite length_app; cbn; split;
    (lia || reflexivity).
Qed.

(** Without the mutex the same [Do] always returns: with [k] retries
    left it has written at most [k+1] times and dialled at most [k]
    times. *)
Lemma Unlocked_Do_fuel_returns fuel : forall c n retries args,
  (Z.to_nat (MAX_RETRIES - retries) < fuel)%nat ->
  exists r c' n',
    Unlocked.Do_fuel fuel c n retries args = Some (r, c', n') /\
    (length (sent n') <= length (sent n) + Z.to_nat (MAX_RETRIES - retries) + 1)%nat /\
    (length (dialed n') <= length (dialed n) + Z.to_nat (MAX_RETRIES - retries))%nat.
Proof.
  induction fuel as [|fuel IH]; intros c n retries args Hfuel; [lia|].
  cbn [Unlocked.Do_fuel].
  destruct (send_log c n args) as [Hs Hd].
  destruct (send c n args) as [err n1]. cbn [snd] in Hs, Hd.
  assert (forall c1 n2,
            sent n2 = sent n1 -> dialed n2 = dialed n1 -> retries < MAX_RETRIES ->
            exists r c' n',
              (let '(_, c, n) := Unlocked.Reconnect c1 n2 in
               Unlocked.Do_fuel fuel c n (retries + 1) args) = Some (r, c', n') /\
              (length (sent n') <= length (sent n) + Z.to_nat (MAX_RETRIES - retries) + 1)%nat /\
              (length (dialed n') <= length (dialed n) + Z.to_nat (MAX_RETRIES - retries))%nat)
    as Hretry.
  { intros c1 n2 Hs2 Hd2 Hlt.
    destruct (Unlocked_Reconnect_log c1 n2) as [Hs3 Hd3].
    destruct (Unlocked.Reconnect c1 n2) as [[e' c3] n3]. cbn [snd] in Hs3, Hd3.
    destruct (IH c3 n3 (retries + 1) args ltac:(lia)) as (r & c' & n' & -> & H1 & H2).
    exists r, c', n'. split; [reflexivity|].
    rewrite Hs3, Hs2 in H1. rewrite Hd3, Hd2, Hd in H2. lia. }
  destruct err as [e|].
  - destruct (Z.ltb_spec retries MAX_RETRIES) as [Hlt|Hge].
    + destruct (negb _); cbn [andb]; [now apply Hretry|].
      do 3 eexists. split; [reflexivity|]. rewrite Hd. lia.
    + rewrite andb_false_r. do 3 eexists. split; [reflexivity|]. rewrite Hd. lia.
  - destruct (Unlocked_recv_log c n1) as [Hs2 Hd2].
    destruct (Unlocked.recv c n1) as [[[resp err] c2] n2]. cbn [snd] in Hs2, Hd2.
    destruct (Z.ltb_spec retries MAX_RETRIES) as [Hlt|Hge].
    + destruct (bool_decide _); cbn [andb]; [now apply Hretry|].
      do 3 eexists. split; [reflexivity|]. rewrite Hs2, Hd2, Hd. lia.
    + rewrite andb_false_r. do 3 eexists. split; [reflexivity|].
      rewrite Hs2, Hd2, Hd. lia.
Qed.

Lemma Unlocked_Do_returns c n args :
  exists r c' n',
    Unlocked.Do c n 0 args = Some (r, c', n') /\
    (length (sent n') <= length (sent n) + 4)%nat /\
    (length (dialed n') <= length (dialed n) + 3)%nat.
Proof.
  destruct (Unlocked_Do_fuel_returns 4 c n 0 args) as (r & c' & n' & H & H1 & H2).
  - vm_compute. lia.
  - exists r, c', n'. split; [assumption|].
    change (Z.to_nat (MAX_RETRIES - 0)) with 3%nat in *. lia.
Qed.

(* ================================================================== *)
(** * Further properties of the code *)

(* ------------------------------------------------------------------ *)
(** ** [Itoa] and [Atoi] *)

Lemma magnitude_digits u : forall acc,
  strconv.magnitude acc (strconv.digits u) = Some (uint_val acc u).
Proof. induction u; intros acc; cbn; auto. Qed.

Lemma uint_val_revapp d : forall d',
  Z.of_N (DecimalPos.Unsigned.of_lu (revapp d d'))
  = uint_val (Z.of_N (DecimalPos.Unsigned.of_lu d')) d.
Proof.
  induction d; intros d'; cbn [revapp uint_val]; [reflexivity|..];
    rewrite IHd; f_equal; cbn [DecimalPos.Unsigned.of_lu]; lia.
Qed.

Lemma uint_val_to_uint p : uint_val 0 (Pos.to_uint p) = Z.pos p.
Proof.
  pose proof (uint_val_revapp (Pos.to_uint p) Decimal.Nil) as H.
  cbn [DecimalPos.Unsigned.of_lu] in H. change (Z.of_N 0) with 0 in H.
  rewrite <- H. fold (Decimal.rev (Pos.to_uint p)).
  rewrite <- DecimalPos.Unsigned.of_uint_alt, DecimalPos.Unsigned.of_to.
  reflexivity.
Qed.

Lemma digits_plain u : Forall plain (strconv.digits u).
Proof.
  induction u; cbn; constructor; try assumption; repeat split; discriminate.
Qed.

Lemma IndexByte_none l :
  Forall (fun b => Byte.eqb b LF = false) l -> IndexByte l LF = -1.
Proof.
  induction 1 as [|b l Hb _ IH]; [reflexivity|].
  cbn [IndexByte]. now rewrite Hb, IH.
Qed.

(** The length line that [send] writes for a payload of [n] bytes is read
    back by [parse] as [n]: it holds no line feed, it is not taken for an
    empty line, and [Atoi] returns [n]. *)
Lemma Itoa_line n :
  0 <= n <= maxInt ->
  IndexByte (strconv.Itoa n) LF = -1 /\
  blank (strconv.Itoa n) = false /\
  strconv.Atoi (strconv.Itoa n) = Some n.
Proof.
  intros Hn. unfold strconv.Itoa.
  destruct n as [|p|p]; [vm_compute; auto| |lia].
  cbn [Z.to_int].
  pose proof (digits_plain (Pos.to_uint p)) as Hd.
  pose proof (DecimalPos.Unsigned.to_uint_nonnil p) as Hnil.
  pose proof (magnitude_digits (Pos.to_uint p) 0) as Hm.
  rewrite uint_val_to_uint in Hm.
  split; [|split].
  - apply IndexByte_none. eapply Forall_impl; [exact Hd|]. now intros b (? & _).
  - destruct (strconv.digits (Pos.to_uint p)) as [|b [|b' l]] eqn:E; cbn.
    + destruct (Pos.to_uint p); cbn in E; congruence.
    + inversion Hd as [|? ? (_ & Hcr & _) _]; subst. exact Hcr.
    + reflexivity.
  - unfold strconv.Atoi.
    destruct (strconv.digits (Pos.to_uint p)) as [|b l] eqn:E.
    { destruct (Pos.to_uint p); cbn in E; congruence. }
    inversion Hd as [|? ? (_ & _ & Hm1 & Hm2) _]; subst.
    destruct b; try congruence; rewrite Hm;
      (destruct (Z.leb_spec minInt (Z.pos p)); [|unfold minInt, intSize in *; lia]);
      (destruct (Z.leb_spec (Z.pos p) maxInt); [reflexivity|lia]).
Qed.

(* ------------------------------------------------------------------ *)
(** ** Encoding and decoding are inverse *)

Lemma slice_prefix buf offset p rest :
  from buf offset = p ++ rest -> slice buf offset (offset + len p) = p.
Proof.
  unfold from, slice, len. intros ->.
  replace (Z.to_nat (offset + Z.of_nat (length p) - offset)) with (length p) by lia.
  now rewrite take_app_length.
Qed.

Lemma from_shift buf offset a b :
  0 <= offset -> from buf offset = a ++ b -> from buf (offset + len a) = b.
Proof.
  unfold from, len. intros Ho H.
  replace (Z.to_nat (offset + Z.of_nat (length a)))
    with (Z.to_nat offset + length a)%nat by lia.
  now rewrite <- drop_drop, H, drop_app_length.
Qed.

Lemma from_len buf offset a :
  0 <= offset -> from buf offset = a -> a <> [] -> len buf = offset + len a.
Proof.
  unfold from, len. intros Ho H Ha.
  assert (length a = length buf - Z.to_nat offset)%nat as Hl
    by (rewrite <- H; apply length_drop).
  destruct a; [contradiction|]. cbn [length] in *. lia.
Qed.

Lemma len_frame f : len (frame f) = len (strconv.Itoa (len f)) + 1 + len f + 1.
Proof. unfold frame. rewrite !len_app. unfold len. cbn [length]. lia. Qed.

(** The decoder walks over the frames that the encoder wrote, one field
    per frame, and stops at the empty line. *)
Lemma parse_loop_wire fs : forall fuel buf offset resp rest,
  0 <= offset ->
  from buf offset = concat (map frame fs) ++ LF :: rest ->
  resp ++ fs <> [] ->
  (length fs < fuel)%nat ->
  len buf <= maxInt ->
  parse_loop fuel buf offset resp
  = Some (Resp (resp ++ fs) (offset + len (concat (map frame fs)) + 1)).
Proof.
  induction fs as [|f fs IH]; intros fuel buf offset resp rest Ho Hfrom Hne Hfuel Hfit;
    (destruct fuel as [|fuel]; [cbn in Hfuel; lia|]).
  - cbn [map concat app] in *. rewrite app_nil_r in *.
    cbn [parse_loop]. rewrite Hfrom. cbn [IndexByte].
    change (Byte.eqb LF LF) with true. cbn [Z.eqb].
    replace (slice buf offset (offset + 0)) with (@nil byte)
      by (unfold slice; now replace (Z.to_nat (offset + 0 - offset)) with 0%nat by lia).
    cbn [blank]. destruct resp; [contradiction|]. reflexivity.
  - cbn [map concat] in *.
    set (line := strconv.Itoa (len f)) in *.
    set (tail := concat (map frame fs) ++ LF :: rest) in *.
    assert (from buf offset = line ++ LF :: (f ++ LF :: tail)) as Hfrom'.
    { rewrite Hfrom. unfold frame. fold line.
      rewrite <- !app_assoc. reflexivity. }
    assert (len buf = offset + (len line + 1 + (len f + 1 + len tail))) as Hlen.
    { rewrite (from_len buf offset _ Ho Hfrom').
      - rewrite !len_app. unfold len. cbn [length]. rewrite length_app. cbn [length]. lia.
      - destruct line; discriminate. }
    pose proof (len_nonneg line). pose proof (len_nonneg f). pose proof (len_nonneg tail).
    destruct (Itoa_line (len f)) as (Hidx & Hblank & Hatoi); [lia|]. fold line in Hidx, Hblank, Hatoi.
    cbn [parse_loop].
    rewrite Hfrom', IndexByte_line by assumption.
    destruct (Z.eqb_spec (len line) (-1)); [lia|].
    rewrite (slice_line _ _ _ _ Hfrom'), Hblank, Hatoi.
    destruct (Z.ltb_spec (len f) 0); [lia|].
    rewrite wrap_int_small by (unfold minInt, maxInt, intSize in *; lia).
    destruct (Z.leb_spec (len buf) (offset + len line + 1 + len f)); [lia|].
    destruct (Z.leb_spec (offset + len line + 1) (offset + len line + 1 + len f)); [|lia].
    assert (from buf (offset + len line + 1) = f ++ LF :: tail) as Hpay.
    { replace (offset + len line + 1) with (offset + len (line ++ [LF]))
        by (rewrite len_app; unfold len; cbn [length]; lia).
      apply from_shift; [assumption|]. now rewrite <- app_assoc. }
    rewrite (slice_prefix _ _ _ _ Hpay).
    assert (from buf (offset + len line + 1 + len f + 1) = tail) as Htail.
    { replace (offset + len line + 1 + len f + 1)
        with (offset + len line + 1 + len (f ++ [LF]))
        by (rewrite len_app; unfold len; cbn [length]; lia).
      apply from_shift; [lia|]. now rewrite <- app_assoc. }
    rewrite (IH fuel buf (offset + len line + 1 + len f + 1) (resp ++ [f]) rest
               ltac:(lia) Htail);
      [|destruct resp; discriminate|cbn in Hfuel; lia|assumption].
    rewrite <- app_assoc. cbn [app]. do 2 f_equal.
    rewrite len_app, len_frame. fold line. lia.
Qed.

Lemma parse_loop_agree fuel fuel' buf offset resp r r' :
  parse_loop fuel buf offset resp = Some r ->
  parse_loop fuel' buf offset resp = Some r' ->
  r = r'.
Proof.
  intros H H'.
  apply (parse_loop_fuel _ (max fuel fuel')) in H; [|lia].
  apply (parse_loop_fuel _ (max fuel fuel')) in H'; [|lia].
  congruence.
Qed.

Lemma parse_wire fs rest :
  fs <> [] ->
  len (wire fs ++ rest) <= maxInt ->
  parse (wire fs ++ rest) = Resp fs (len (wire fs)).
Proof.
  intros Hne Hfit.
  pose proof (parse_eq (wire fs ++ rest)) as H.
  assert (from (wire fs ++ rest) 0 = concat (map frame fs) ++ LF :: rest) as Hfrom.
  { unfold from, wire. cbn [Z.to_nat drop]. now rewrite <- app_assoc. }
  pose proof (parse_loop_wire fs (S (length fs)) (wire fs ++ rest) 0 [] rest
                ltac:(lia) Hfrom Hne ltac:(lia) Hfit) as H'.
  rewrite (parse_loop_agree _ _ _ _ _ _ _ H H').
  unfold wire. rewrite len_app. unfold len at 3. cbn [length app]. f_equal; lia.
Qed.

(** X1.  Round trip.  What [send] writes for supported arguments that
    carry at least one text, [parse] reads back as exactly those texts,
    byte for byte, consuming the request and nothing of what follows
    it. *)
Theorem request_round_trip args rest :
  Forall supported args ->
  concat (map texts args) <> [] ->
  len (request args ++ rest) <= maxInt ->
  encode args = inl (request args) /\
  parse (request args ++ rest)
    = Resp (concat (map texts args)) (len (request args)) /\
  retained (request args ++ rest) (parse (request args ++ rest)) = rest.
Proof.
  intros Hs Hne Hfit.
  assert (parse (request args ++ rest)
          = Resp (concat (map texts args)) (len (request args))) as Hp
    by (apply (parse_wire (concat (map texts args)) rest); assumption).
  split; [unfold encode; now rewrite send_args_frames|].
  split; [assumption|].
  rewrite Hp. cbn [retained]. unfold from, len.
  rewrite Nat2Z.id. apply drop_app_length.
Qed.

Lemma request_round_trip_witness :
  parse (request mixed_args ++ lit "1\nx")
  = Resp [lit "cmd"; lit "k1"; lit "k2"; lit "-7"; lit "1"; []; lit "raw";
          lit "1.500000"]
      (len (request mixed_args)).
Proof.
  refine (proj1 (proj2 (request_round_trip mixed_args (lit "1\nx") _ _ _))).
  - repeat constructor.
  - discriminate.
  - vm_compute. discriminate.
Defined.

(* ------------------------------------------------------------------ *)
(** ** A frame is decided by the bytes it consumes *)

Lemma len_take_le {A} (l : list A) n :
  0 <= n <= len l -> len (take (Z.to_nat n) l) = n.
Proof. unfold len. intros ?. rewrite length_take. lia. Qed.

Lemma from_take buf n offset :
  0 <= offset -> from (take (Z.to_nat n) buf) offset
                 = take (Z.to_nat (n - offset)) (from buf offset).
Proof.
  intros Ho. unfold from. rewrite skipn_firstn_comm. f_equal. lia.
Qed.

Lemma IndexByte_take l c k :
  0 <= IndexByte l c < Z.of_nat k -> IndexByte (take k l) c = IndexByte l c.
Proof.
  revert k. induction l as [|y l IH]; intros k Hk; [cbn in Hk; lia|].
  destruct k as [|k]; [lia|]. cbn [take IndexByte] in *.
  destruct (Byte.eqb y c); [reflexivity|].
  destruct (Z.ltb_spec (IndexByte l c) 0); [lia|].
  rewrite IH by lia.
  destruct (Z.ltb_spec (IndexByte l c) 0); [lia|reflexivity].
Qed.

Lemma slice_take buf n lo hi :
  0 <= lo -> hi <= n -> slice (take (Z.to_nat n) buf) lo hi = slice buf lo hi.
Proof.
  intros Hlo Hhi. unfold slice.
  rewrite skipn_firstn_comm, take_take. f_equal. lia.
Qed.

Lemma parse_loop_take fuel : forall buf offset resp fields n,
  0 <= offset <= len buf ->
  parse_loop fuel buf offset resp = Some (Resp fields n) ->
  parse_loop fuel (take (Z.to_nat n) buf) offset resp = Some (Resp fields n).
Proof.
  induction fuel as [|fuel IH]; intros buf offset resp fields n Hoff H; [discriminate|].
  pose proof (parse_loop_Resp _ _ _ _ _ _ Hoff H) as [Hn _].
  cbn [parse_loop] in *.
  pose proof (IndexByte_range (from buf offset) LF) as Hidx.
  rewrite len_from in Hidx by assumption.
  destruct (Z.eqb_spec (IndexByte (from buf offset) LF) (-1)); [discriminate|].
  destruct Hidx as [|Hidx]; [contradiction|].
  set (idx := IndexByte (from buf offset) LF) in *.
  assert (offset + idx + 1 <= n) as Hbound.
  { destruct (blank _).
    - destruct resp.
      + apply parse_loop_Resp in H; lia.
      + injection H as _ <-. lia.
    - destruct (strconv.Atoi _) as [size|]; [|discriminate].
      destruct (size <? 0); [discriminate|].
      destruct (Z.leb_spec (len buf) (wrap_int (offset + idx + 1 + size)));
        [discriminate|].
      destruct (Z.leb_spec (offset + idx + 1) (wrap_int (offset + idx + 1 + size)));
        [|discriminate].
      apply parse_loop_Resp in H; lia. }
  rewrite from_take by lia.
  rewrite IndexByte_take by (fold idx; lia). fold idx.
  destruct (Z.eqb_spec idx (-1)); [lia|].
  rewrite slice_take by lia.
  destruct (blank _).
  - destruct resp; [|assumption]. apply IH; [lia|assumption].
  - destruct (strconv.Atoi _) as [size|]; [|discriminate].
    destruct (size <? 0); [discriminate|].
    destruct (Z.leb_spec (len buf) (wrap_int (offset + idx + 1 + size)));
      [discriminate|].
    destruct (Z.leb_spec (offset + idx + 1) (wrap_int (offset + idx + 1 + size)));
      [|discriminate].
    pose proof H as Hn'. apply parse_loop_Resp in Hn' as [Hn' _]; [|lia].
    rewrite len_take_le by lia.
    destruct (Z.leb_spec n (wrap_int (offset + idx + 1 + size))); [lia|].
    rewrite slice_take by lia.
    apply IH; [lia|assumption].
Qed.

(** X3.  When [parse] returns a frame, the frame and the number of bytes
    consumed are decided by those bytes alone: the same bytes on their
    own, or followed by anything else, give the same frame, and the rest
    of the buffer is what [parse] leaves behind. *)
Theorem frame_decided_by_consumed_bytes buf fields n :
  parse buf = Resp fields n ->
  0 < n <= len buf /\
  buf = slice buf 0 n ++ retained buf (parse buf) /\
  forall rest, parse (slice buf 0 n ++ rest) = Resp fields n.
Proof.
  intros Hp. destruct (parse_Resp _ _ _ Hp) as [Hn _].
  split; [assumption|]. split.
  - rewrite Hp. cbn [retained].
    change (slice buf 0 n) with (take (Z.to_nat (n - 0)) buf). rewrite Z.sub_0_r.
    symmetry. apply take_drop.
  - intros rest.
    assert (parse (slice buf 0 n) = Resp fields n) as Hs.
    { pose proof (parse_eq buf) as H. rewrite Hp in H.
      apply parse_loop_take in H; [|pose proof (len_nonneg buf); lia].
      change (slice buf 0 n) with (take (Z.to_nat (n - 0)) buf). rewrite Z.sub_0_r.
      pose proof (parse_eq (take (Z.to_nat n) buf)) as H'.
      now rewrite (parse_loop_agree _ _ _ _ _ _ _ H' H). }
    rewrite parse_app; [assumption|]. rewrite Hs. discriminate.
Qed.

Lemma frame_decided_by_consumed_bytes_witness :
  parse (slice (lit "2\nok\n\n2\nno\n\n") 0 6 ++ lit "anything") = Resp [lit "ok"] 6.
Proof.
  refine (proj2 (proj2 (frame_decided_by_consumed_bytes
                          (lit "2\nok\n\n2\nno\n\n") [lit "ok"] 6 _)) _).
  vm_compute. reflexivity.
Defined.

(* ------------------------------------------------------------------ *)
(** ** The encoder and values it does not know *)

Lemma send_args_unsupported pre : forall buf v post,
  Forall supported pre ->
  send_args buf (pre ++ AOther v :: post) = inr (Err (lit "bad request:" ++ v)).
Proof.
  induction pre as [|a pre IH]; intros buf v post Hs; [reflexivity|].
  inversion Hs as [|? ? Ha Hpre]; subst.
  destruct a; cbn [send_args app]; try contradiction; now apply IH.
Qed.

Lemma send_args_inr args : forall buf e,
  send_args buf args = inr e ->
  exists pre v post,
    args = pre ++ AOther v :: post /\ Forall supported pre /\
    e = Err (lit "bad request:" ++ v).
Proof.
  induction args as [|a args IH]; intros buf e H; [discriminate|].
  destruct a as [s|b|l|t z|f|bb| |w]; cbn [send_args] in H;
    try (apply IH in H as (pre & v' & post & -> & Hpre & ->);
         eexists (_ :: pre), v', post;
         repeat split; [constructor; [exact I|assumption]]).
  injection H as <-. exists [], w, args. repeat split. constructor.
Qed.

(** X4.  [send] refuses an argument list exactly when it holds a value
    of a type outside its [switch]; the error names the first such value,
    whatever stands before or after it, and nothing reaches the socket:
    the frames already built for the earlier arguments are dropped with
    the local buffer. *)
Theorem encode_rejects_first_unsupported args e :
  (encode args = inr e <->
   exists pre v post,
     args = pre ++ AOther v :: post /\ Forall supported pre /\
     e = Err (lit "bad request:" ++ v)) /\
  (encode args = inr e -> forall c n, send c n args = (Some e, n)).
Proof.
  split; [split|].
  - apply send_args_inr.
  - intros (pre & v & post & -> & Hpre & ->). now apply send_args_unsupported.
  - intros He c n. unfold send. now rewrite He.
Qed.

(* ------------------------------------------------------------------ *)
(** ** A healthy exchange *)

Lemma recv_log c n :
  sent (snd (recv c n)) = sent n /\
  dialed (snd (recv c n)) = dialed n /\
  dials (snd (recv c n)) = dials n /\
  sock (snd (fst (recv c n))) = sock c /\
  addr (snd (fst (recv c n))) = addr c.
Proof.
  unfold recv. destruct (open (sock c)); [|auto].
  destruct (recv_loop _ _) as [[r buf] rs]. auto.
Qed.

Lemma recv_loop_wire cs rs fs :
  cs <> [] ->
  concat cs = wire fs ->
  fs <> [] ->
  len (wire fs) <= maxInt ->
  fst (recv_loop (map Data cs ++ rs) []) = (Returned (Some fs, None), []).
Proof.
  intros Hcs Hcat Hfs Hfit.
  destruct (recv_loop_chunks cs [] rs Hcs) as (unread & Hr & _ & Hb).
  rewrite Hcat in Hr, Hb. cbn [recv_loop app] in Hr, Hb.
  pose proof (parse_wire fs [] Hfs) as Hp. rewrite app_nil_r in Hp.
  rewrite Hp in Hr, Hb by assumption.
  assert (0 < len fs) as Hlen by (destruct fs; [contradiction|unfold len; cbn; lia]).
  destruct (Z.ltb_spec 0 (len fs)); [|lia]. cbn [fst snd] in Hr, Hb.
  assert (from (wire fs) (len (wire fs)) = []) as Hnil
    by (unfold from, len; rewrite Nat2Z.id; apply drop_all).
  rewrite Hnil in Hb. symmetry in Hb. apply app_eq_nil in Hb as [Hb _].
  destruct (recv_loop (map Data cs ++ rs) []) as [[r b] rs']. cbn [fst snd] in *.
  now subst.
Qed.

(** X2.  A healthy exchange.  On a connected client with a free mutex and
    an empty receive buffer, when the write succeeds and the server
    answers with the frames of the fields [fs], [Do] returns exactly
    [fs] without an error, however the answer is cut into reads.  The
    request was written once, nothing was dialled, and the client is as
    before: mutex free, buffer empty, same socket. *)
Theorem Do_healthy_exchange c n retries args b fs cs rs :
  mutex c = false ->
  open (sock c) = true ->
  recv_buf c = [] ->
  encode args = inl b ->
  hd None (writes n) = None ->
  reads n = map Data cs ++ rs ->
  cs <> [] ->
  concat cs = wire fs ->
  fs <> [] ->
  len (wire fs) <= maxInt ->
  fst (Do c n retries args) = (Returned (Some fs, None), c) /\
  sent (snd (Do c n retries args)) = sent n ++ [b] /\
  dialed (snd (Do c n retries args)) = dialed n.
Proof.
  intros Hm Ho Hbuf He Hw Hreads Hcs Hcat Hfs Hfit.
  rewrite Do_attempt by assumption. unfold attempt.
  rewrite (send_open (set_mutex c true) n args b He Ho), Hw.
  unfold recv. cbn [sock set_mutex reads set_writes recv_buf]. rewrite Ho, Hreads, Hbuf.
  pose proof (recv_loop_wire cs rs fs Hcs Hcat Hfs Hfit) as Hr.
  destruct (recv_loop (map Data cs ++ rs) []) as [[r buf] rs'].
  cbn [fst] in Hr. injection Hr as -> ->.
  rewrite bool_decide_eq_false_2 by (intros H; now apply H). cbn [andb fst snd].
  repeat split. f_equal. destruct c; cbn in *; now subst.
Qed.

Lemma Do_healthy_exchange_witness :
  fst (fst (Do demo_client
              {| writes := []; reads := map Data [lit "2\no"; lit "k\n1\n7"; lit "\n\n"] ++ [];
                 dials := []; sent := []; dialed := [] |}
              0 [AString (lit "incr"); AString (lit "n"); AInteger Int 1]))
  = Returned (Some [lit "ok"; lit "7"], None).
Proof.
  refine (f_equal fst (proj1 (Do_healthy_exchange demo_client _ 0 _
            (lit "4\nincr\n1\nn\n1\n1\n\n") [lit "ok"; lit "7"]
            [lit "2\no"; lit "k\n1\n7"; lit "\n\n"] [] _ _ _ _ _ _ _ _ _ _)));
    try reflexivity; discriminate.
Defined.

(* ------------------------------------------------------------------ *)
(** ** Every return of [Do] is a return of the first attempt *)

(** X5.  On a client with a free mutex, whenever [Do] returns, it
    returns from its first attempt: nothing was dialled, the request was
    written at most once, the socket is the one the client had, and the
    mutex is free again.  With retries left, the only errors [Do] ever
    returns are those whose text holds [bad request]: an I/O error of
    the write or of the read is never handed to the caller. *)
Theorem Do_returns_from_first_attempt c n retries args r c' n' :
  mutex c = false ->
  Do c n retries args = (Returned r, c', n') ->
  mutex c' = false /\
  sock c' = sock c /\
  dialed n' = dialed n /\
  (length (sent n') <= S (length (sent n)))%nat /\
  (retries < MAX_RETRIES ->
   forall e, snd r = Some e -> Contains (Error e) (lit "bad request") = true).
Proof.
  intros Hm. rewrite Do_attempt by assumption. unfold attempt.
  destruct (send_log (set_mutex c true) n args) as [Hs Hd].
  destruct (send (set_mutex c true) n args) as [[e|] n1]; cbn [snd] in Hs, Hd.
  - destruct (Contains (Error e) (lit "bad request")) eqn:Hc;
      destruct (Z.ltb_spec retries MAX_RETRIES) as [Hlt|Hge]; cbn [negb andb];
      try (intros H; destruct (retry_log (set_mutex c true) n1) as (Hb & _);
           rewrite H in Hb; discriminate);
      intros H; inversion H; subst; clear H; repeat split; try assumption;
      try (intros; lia).
    intros _ e' [= <-]. exact Hc.
  - destruct (recv_log (set_mutex c true) n1) as (Hs2 & Hd2 & _ & Hk & _).
    pose proof (recv_mutex (set_mutex c true) n1) as Hm2.
    destruct (recv (set_mutex c true) n1) as [[[[resp err]| |] c2] n2];
      cbn [fst snd] in *; try discriminate.
    destruct err as [e|].
    + rewrite bool_decide_eq_true_2 by discriminate.
      destruct (Z.ltb_spec retries MAX_RETRIES) as [Hlt|Hge]; cbn [andb].
      * intros H. destruct (retry_log c2 n2) as (Hb & _). rewrite H in Hb. discriminate.
      * intros H; inversion H; subst; clear H. cbn [sock set_mutex mutex] in *.
        repeat split; try congruence; try (intros; lia).
    + rewrite bool_decide_eq_false_2 by (intros H; now apply H). cbn [andb].
      intros H; inversion H; subst; clear H. cbn [sock set_mutex mutex] in *.
      repeat split; try congruence; discriminate.
Qed.

Lemma Do_returns_from_first_attempt_witness :
  dialed (snd (Do demo_client garbage_reply 0 (Set_args (lit "a") (lit "1")))) = [].
Proof.
  refine (proj1 (proj2 (proj2 (Do_returns_from_first_attempt demo_client garbage_reply 0
            (Set_args (lit "a") (lit "1")) (None, None)
            (set_recv_buf demo_client (lit "x\n"))
            (snd (Do demo_client garbage_reply 0 (Set_args (lit "a") (lit "1"))))
            _ _)))).
  - reflexivity.
  - vm_compute. reflexivity.
Defined.

(* ------------------------------------------------------------------ *)
(** ** Responses that carry pairs *)

Lemma flat_cons kv kvs : flat (kv :: kvs) = fst kv :: snd kv :: flat kvs.
Proof. reflexivity. Qed.

Lemma len_flat kvs : len (flat kvs) = 2 * len kvs.
Proof.
  induction kvs as [|kv kvs IH]; [reflexivity|].
  rewrite flat_cons. unfold len in *. cbn [length]. lia.
Qed.

Lemma list_ind_by_two {A} (P : list A -> Prop) :
  P [] -> (forall a, P [a]) -> (forall a b l, P l -> P (a :: b :: l)) ->
  forall l, P l.
Proof.
  intros H0 H1 H2.
  enough (forall l, P l /\ forall a, P (a :: l)) as H by (intros l; apply H).
  induction l as [|a l [IH1 IH2]]; [auto|].
  split; [apply IH2|]. intros b. now apply H2.
Qed.

(** A list of even length is a list of pairs; one of odd length is a
    list of pairs and one more element. *)
Lemma pairs_or_dangling (l : list bytes) :
  (exists kvs, l = flat kvs) \/ (exists kvs last, l = flat kvs ++ [last]).
Proof.
  induction l as [|a|a b l IH] using list_ind_by_two.
  - left. now exists [].
  - right. now exists [], a.
  - destruct IH as [(kvs & ->)|(kvs & last & ->)].
    + left. now exists ((a, b) :: kvs).
    + right. now exists ((a, b) :: kvs), last.
Qed.

Lemma pair_up_flat kvs : forall acc, pair_up (flat kvs) acc = Returned (acc ++ kvs).
Proof.
  induction kvs as [|[k v] kvs IH]; intros acc.
  - cbn. now rewrite app_nil_r.
  - rewrite flat_cons. cbn [pair_up fst snd]. rewrite IH, <- app_assoc. reflexivity.
Qed.

Lemma pair_up_dangling kvs last : forall acc,
  pair_up (flat kvs ++ [last]) acc = Panicked.
Proof.
  induction kvs as [|[k v] kvs IH]; intros acc; [reflexivity|].
  rewrite flat_cons. cbn [app fst snd].
  change (pair_up (flat kvs ++ [last]) (acc ++ [(k, v)]) = Panicked). apply IH.
Qed.

Lemma land_1_even n : 0 <= n -> Z.land (2 * n) 1 = 0.
Proof.
  intros _. change 1 with (Z.ones 1). rewrite Z.land_ones by lia.
  change (2 ^ 1) with 2. rewrite (Z.mul_comm 2 n). apply Z.mod_mul. lia.
Qed.

Lemma land_1_odd n : 0 <= n -> Z.land (1 + 2 * n) 1 = 1.
Proof.
  intros _. change 1 with (Z.ones 1) at 2. rewrite Z.land_ones by lia.
  change (2 ^ 1) with 2. rewrite (Z.mul_comm 2 n), Z.mod_add by lia.
  reflexivity.
Qed.

Lemma odd_ok_pairs s kvs :
  odd_ok (Some (s :: flat kvs)) = bool_decide (s = lit "ok").
Proof.
  unfold odd_ok. cbn [from_option id status_ok].
  replace (len (s :: flat kvs)) with (1 + 2 * len kvs)
    by (rewrite <- len_flat; unfold len; cbn [length]; lia).
  rewrite land_1_odd by apply len_nonneg. reflexivity.
Qed.

Lemma odd_ok_dangling s kvs last : odd_ok (Some (s :: flat kvs ++ [last])) = false.
Proof.
  unfold odd_ok. cbn [from_option id].
  replace (len (s :: flat kvs ++ [last])) with (2 * (1 + len kvs))
    by (pose proof (len_flat kvs); unfold len in *; cbn [length];
        rewrite length_app; cbn [length]; lia).
  rewrite land_1_even by (pose proof (len_nonneg kvs); lia). reflexivity.
Qed.

(** X6.  [Scan] never indexes outside the response.  A response [ok]
    followed by pairs gives exactly those pairs, in order; a response
    with a key left over is refused as a bad response before the loop
    runs; so the decoder of [Scan] returns for every response, and [Scan]
    panics only if [Do] does. *)
Theorem Scan_reads_pairs_and_never_panics :
  (forall kvs, Scan_decode (Some (lit "ok" :: flat kvs), None)
               = Returned (Some kvs, None)) /\
  (forall s kvs last, Scan_decode (Some (s :: flat kvs ++ [last]), None)
                      = Returned (None, Some ErrBadResponse)) /\
  (forall r, exists res, Scan_decode r = Returned res) /\
  (forall c n startKey endKey limit,
     fst (fst (Scan c n startKey endKey limit)) = Panicked ->
     fst (fst (Do c n 0 [AString (lit "scan"); AString startKey; AString endKey;
                         AInteger Int limit])) = Panicked).
Proof.
  assert (forall kvs, Scan_decode (Some (lit "ok" :: flat kvs), None)
                      = Returned (Some kvs, None)) as Hok.
  { intros kvs. unfold Scan_decode. rewrite odd_ok_pairs.
    cbn [from_option id tail]. now rewrite pair_up_flat. }
  assert (forall s kvs last, Scan_decode (Some (s :: flat kvs ++ [last]), None)
                             = Returned (None, Some ErrBadResponse)) as Hbad.
  { intros s kvs last. unfold Scan_decode. now rewrite odd_ok_dangling. }
  assert (forall r, exists res, Scan_decode r = Returned res) as Htotal.
  { intros [resp [e|]]; [eexists; reflexivity|].
    destruct resp as [[|s l]|]; try (eexists; reflexivity).
    destruct (pairs_or_dangling l) as [(kvs & ->)|(kvs & last & ->)].
    - unfold Scan_decode. rewrite odd_ok_pairs.
      destruct (bool_decide _); [|eexists; reflexivity].
      cbn [from_option id tail]. rewrite pair_up_flat. eexists; reflexivity.
    - rewrite Hbad. eexists; reflexivity. }
  repeat split; try assumption.
  intros c n startKey endKey limit. unfold Scan, call_o.
  destruct (Do c n 0 _) as [[[r| |] c'] n']; cbn [fst]; try easy.
  destruct (Htotal r) as (res & ->). discriminate.
Qed.

Lemma zscan_loop_flat kvs : forall (es : list (bytes * Z)) m,
  Forall2 (fun kv e => fst kv = fst e /\ ParseInt (snd kv) = Some (snd e)) kvs es ->
  zscan_loop (flat kvs) m
  = Returned (Some (foldl (fun m e => <[fst e := snd e]> m) m es), None).
Proof.
  induction kvs as [|[k s] kvs IH]; intros es m H; inversion H as [|? e ? es' [Hk Hv] Ht];
    subst; [reflexivity|].
  rewrite flat_cons. cbn [zscan_loop fst snd foldl] in *. rewrite Hv, Hk. now apply IH.
Qed.

Lemma zscan_loop_dangling kvs last : forall m,
  Forall (fun kv => ParseInt (snd kv) <> None) kvs ->
  zscan_loop (flat kvs ++ [last]) m = Panicked.
Proof.
  induction kvs as [|[k s] kvs IH]; intros m H; [reflexivity|].
  inversion H as [|? ? Hs Ht]; subst. cbn [snd] in Hs.
  rewrite flat_cons. cbn [app fst snd].
  change (match ParseInt s with
          | None => Returned (None, Some (NumError s))
          | Some v => zscan_loop (flat kvs ++ [last]) (<[k := v]> m)
          end = Panicked).
  destruct (ParseInt s); [|contradiction]. now apply IH.
Qed.

Lemma foldl_insert_list_to_map (es : list (bytes * Z)) :
  foldl (fun m e => <[fst e := snd e]> m) (∅ : gmap bytes Z) es
  = list_to_map (reverse es).
Proof.
  induction es as [|[k v] es IH] using rev_ind; [reflexivity|].
  rewrite foldl_app, reverse_app. cbn [foldl reverse rev_append app fst snd].
  now rewrite list_to_map_cons, IH.
Qed.

(** X7.  [ZScan] checks that the response starts with [ok] but not that
    pairs follow: when every score parses and one key is left over, the
    loop reads [res[i+1]] past the end and panics.  On a response of
    whole pairs with scores that parse it returns the map of the pairs,
    where a key that occurs twice keeps the score of its last occurrence
    ([list_to_map] keeps the first entry of a key, here of the reversed
    list). *)
Theorem ZScan_dangling_key_panics kvs :
  Forall (fun kv => ParseInt (snd kv) <> None) kvs ->
  (forall last, ZScan_decode (Some (lit "ok" :: flat kvs ++ [last]), None) = Panicked) /\
  (forall es,
     Forall2 (fun kv e => fst kv = fst e /\ ParseInt (snd kv) = Some (snd e)) kvs es ->
     ZScan_decode (Some (lit "ok" :: flat kvs), None)
     = Returned (Some (list_to_map (reverse es)), None)).
Proof.
  intros Hs. split.
  - intros last. unfold ZScan_decode. cbn [status_ok from_option id tail].
    rewrite bool_decide_eq_true_2 by reflexivity. now apply zscan_loop_dangling.
  - intros es Hes. unfold ZScan_decode. cbn [status_ok from_option id tail].
    rewrite bool_decide_eq_true_2 by reflexivity.
    rewrite (zscan_loop_flat kvs es ∅ Hes). now rewrite foldl_insert_list_to_map.
Qed.

Lemma ZScan_dangling_key_panics_witness :
  ZScan_decode (Some [lit "ok"; lit "a"; lit "1"; lit "b"], None) = Panicked.
Proof.
  refine (proj1 (ZScan_dangling_key_panics [(lit "a", lit "1")] _) (lit "b")).
  repeat constructor. discriminate.
Defined.

Lemma pairs_up_flat kvs : forall acc,
  pairs_up (flat kvs) acc
  = Returned (acc ++ map (fun kv => Some (NewKVPair (fst kv) (AString (snd kv)))) kvs).
Proof.
  induction kvs as [|[key val] kvs IH]; intros acc.
  - cbn. now rewrite app_nil_r.
  - rewrite flat_cons. cbn [pairs_up fst snd map]. rewrite IH, <- app_assoc. reflexivity.
Qed.

(** X8.  [Client.MultiGet] never indexes outside the response.  [ok]
    followed by pairs gives those pairs in order, each value a string;
    [ok] alone and [not_found] both give the nil slice without an error;
    a response with a key left over is a bad response; so the decoder
    returns for every response. *)
Theorem MultiGet_reads_pairs_and_never_panics :
  (forall kv kvs,
     MultiGet_decode (Some (lit "ok" :: flat (kv :: kvs)), None)
     = Returned (Some (map (fun kv => Some (NewKVPair (fst kv) (AString (snd kv))))
                         (kv :: kvs)), None)) /\
  MultiGet_decode (Some [lit "ok"], None) = Returned (None, None) /\
  (forall rest, MultiGet_decode (Some (lit "not_found" :: rest), None)
                = Returned (None, None)) /\
  (forall kvs last, MultiGet_decode (Some (lit "ok" :: flat kvs ++ [last]), None)
                    = Returned (None, Some ErrBadResponse)) /\
  (forall r, exists res, MultiGet_decode r = Returned res).
Proof.
  assert (forall s kvs, s = lit "ok" ->
            MultiGet_decode (Some (s :: flat kvs), None)
            = Returned (match kvs with
                        | [] => None
                        | _ => Some (map (fun kv => Some (NewKVPair (fst kv) (AString (snd kv)))) kvs)
                        end, None)) as Hok.
  { intros s kvs ->. unfold MultiGet_decode. rewrite odd_ok_pairs.
    rewrite bool_decide_eq_true_2 by reflexivity. cbn [from_option id tail].
    rewrite pairs_up_flat. cbn [app]. now destruct kvs. }
  split; [intros kv kvs; now rewrite Hok|].
  split; [reflexivity|].
  split.
  { intros rest. unfold MultiGet_decode, odd_ok. cbn [status_ok status_not_found].
    rewrite bool_decide_eq_false_2 by discriminate. rewrite andb_false_r.
    now rewrite bool_decide_eq_true_2. }
  split.
  { intros kvs last. unfold MultiGet_decode. rewrite odd_ok_dangling.
    cbn [status_not_found]. now rewrite bool_decide_eq_false_2. }
  intros [resp [e|]]; [eexists; reflexivity|].
  destruct resp as [[|s l]|]; try (eexists; reflexivity).
  destruct (pairs_or_dangling l) as [(kvs & ->)|(kvs & last & ->)].
  - destruct (decide (s = lit "ok")) as [Hs|Hs].
    + rewrite Hok by assumption. eexists; reflexivity.
    + unfold MultiGet_decode. rewrite odd_ok_pairs, bool_decide_eq_false_2 by assumption.
      destruct (status_not_found _); eexists; reflexivity.
  - unfold MultiGet_decode. rewrite odd_ok_dangling.
    destruct (status_not_found _); eexists; reflexivity.
Qed.

(* ------------------------------------------------------------------ *)
(** ** [locateKeys] groups the keys by shard *)

Lemma part_push {A} (res : gmap Z (list A)) loc x i :
  part (Cluster.push res loc x) i
  = if decide (i = loc) then part res i ++ [x] else part res i.
Proof.
  unfold part, Cluster.push. destruct (decide (i = loc)) as [->|Hne].
  - now rewrite lookup_insert_eq.
  - now rewrite lookup_insert_ne by congruence.
Qed.

Lemma locateKeys_from_parts c ks : forall res parts,
  Cluster.locateKeys_from c res ks = Returned parts ->
  (forall i, part parts i
             = part res i ++ filter (fun key => Cluster.locate c key = Returned i) ks) /\
  (forall i, is_Some (parts !! i) <->
             is_Some (res !! i) \/ Exists (fun key => Cluster.locate c key = Returned i) ks) /\
  Forall (fun key => exists i, Cluster.locate c key = Returned i) ks.
Proof.
  induction ks as [|key ks IH]; intros res parts H.
  - injection H as <-. split; [|split].
    + intros i. now rewrite app_nil_r.
    + intros i. rewrite Exists_nil. tauto.
    + constructor.
  - cbn [Cluster.locateKeys_from] in H.
    destruct (Cluster.locate c key) as [loc| |] eqn:Hloc; try discriminate.
    apply IH in H as (Hpart & Hsome & Hall). split; [|split].
    + intros i. rewrite Hpart, part_push, filter_cons.
      destruct (decide (i = loc)) as [->|Hne].
      * rewrite decide_True by exact Hloc. now rewrite <- app_assoc.
      * rewrite decide_False by (rewrite Hloc; congruence). reflexivity.
    + intros i. rewrite Hsome, Exists_cons. unfold Cluster.push.
      destruct (decide (i = loc)) as [->|Hne].
      * rewrite lookup_insert_eq. split; [intros _; right; now left|eauto].
      * rewrite lookup_insert_ne by congruence.
        split; [tauto|]. intros [?|[?|?]]; try tauto. congruence.
    + constructor; [now exists loc|assumption].
Qed.

Lemma locate_range c key i :
  Cluster.locate c key = Returned i ->
  0 <= i < Cluster.uint16 (len (Cluster.shards c)).
Proof.
  rewrite locate_eq.
  pose proof (Z.mod_pos_bound (len (Cluster.shards c)) 65536 ltac:(lia)) as Hu.
  fold (Cluster.uint16 (len (Cluster.shards c))) in Hu.
  destruct (Z.eqb_spec (Cluster.uint16 (len (Cluster.shards c))) 0); [discriminate|].
  intros [= <-]. apply Z.mod_pos_bound. lia.
Qed.

(** X9.  [locateKeys] splits the keys by shard and keeps their order:
    the entry of shard [i] is the list of the keys that [locate] sends to
    [i], in the order given; a shard has an entry exactly when some key
    goes to it, so no worker is started for a shard without keys; and
    every index that has an entry is the index of a shard of the
    table. *)
Theorem locateKeys_groups_by_shard c ks parts :
  Cluster.locateKeys c ks = Returned parts ->
  forall i,
    part parts i = filter (fun key => Cluster.locate c key = Returned i) ks /\
    (is_Some (parts !! i) <->
     Exists (fun key => Cluster.locate c key = Returned i) ks) /\
    (is_Some (parts !! i) -> 0 <= i < len (Cluster.shards c)).
Proof.
  intros H i. apply locateKeys_from_parts in H as (Hpart & Hsome & _).
  assert (is_Some (parts !! i) <->
          Exists (fun key => Cluster.locate c key = Returned i) ks) as Hiff.
  { rewrite Hsome, lookup_empty. split; [intros [[? [=]]|?]; assumption|tauto]. }
  split; [now rewrite Hpart|]. split; [assumption|].
  intros Hi. apply Hiff, Exists_exists in Hi as (key & _ & Hloc).
  apply locate_range in Hloc. unfold Cluster.uint16 in Hloc.
  pose proof (len_nonneg (Cluster.shards c)).
  pose proof (Z.mod_le (len (Cluster.shards c)) 65536 ltac:(lia) ltac:(lia)). lia.
Qed.

Lemma locateKeys_groups_by_shard_witness :
  part (<[2 := [lit "j"; lit "x"]]> (<[1 := [lit "b"]]> (<[0 := [lit "a"; lit "c"]]> ∅))) 0
  = filter (fun key => Cluster.locate (table 3) key = Returned 0)
      [lit "a"; lit "b"; lit "j"; lit "c"; lit "x"].
Proof.
  refine (proj1 (locateKeys_groups_by_shard (table 3)
                   [lit "a"; lit "b"; lit "j"; lit "c"; lit "x"] _ _ 0)).
  vm_compute. reflexivity.
Defined.

(* ------------------------------------------------------------------ *)
(** ** What a bulk delete returns *)

Lemma concat_map_Permutation {A B} (g : A -> list B) l l' :
  l ≡ₚ l' -> concat (map g l) ≡ₚ concat (map g l').
Proof.
  induction 1 as [|x l l' _ IH|x y l|l l' l'' _ IH1 _ IH2]; cbn [map concat].
  - reflexivity.
  - now apply Permutation_app_head.
  - apply Permutation_app_swap_app.
  - now transitivity (concat (map g l')).
Qed.

Lemma concat_map_nil {A B} (g : A -> list B) l :
  (forall i, g i = []) -> concat (map g l) = [].
Proof. intros Hg. induction l as [|i l IH]; cbn; [reflexivity|]. now rewrite Hg, IH. Qed.

(** Adding [extra] to what index [j] contributes adds it once to the
    whole, when [j] occurs once. *)
Lemma concat_map_add_at {B} (g g' : Z -> list B) (extra : list B) j D :
  NoDup D -> j ∈ D ->
  (forall i, g' i = if decide (i = j) then extra ++ g i else g i) ->
  concat (map g' D) ≡ₚ extra ++ concat (map g D).
Proof.
  intros Hnd Hj Hg'. induction Hnd as [|d D Hd Hnd IH]; [now apply elem_of_nil in Hj|].
  cbn [map concat]. rewrite Hg'. destruct (decide (d = j)) as [->|Hne].
  - rewrite <- app_assoc. do 2 apply Permutation_app_head.
    assert (map g' D = map g D) as ->; [|reflexivity].
    apply map_ext_in. intros i Hi. rewrite Hg'.
    destruct (decide (i = j)) as [->|]; [|reflexivity].
    apply list_elem_of_In in Hi. contradiction.
  - apply elem_of_cons in Hj as [->|Hj]; [contradiction|].
    rewrite (IH Hj). apply Permutation_app_swap_app.
Qed.

Lemma regroup_by_shard c (s : Z -> bool) D ks :
  NoDup D ->
  Forall (fun key => exists i, Cluster.locate c key = Returned i /\ i ∈ D) ks ->
  concat (map (fun i => if s i
                        then filter (fun key => Cluster.locate c key = Returned i) ks
                        else []) D)
  ≡ₚ filter (fun key => match Cluster.locate c key with
                        | Returned i => s i
                        | _ => false
                        end = true) ks.
Proof.
  intros Hnd Hks. induction Hks as [|key ks (j & Hloc & Hj) _ IH].
  - rewrite concat_map_nil; [reflexivity|]. intros i. now destruct (s i).
  - rewrite (concat_map_add_at
               (fun i => if s i
                         then filter (fun key => Cluster.locate c key = Returned i) ks
                         else [])
               _ (if s j then [key] else []) j D Hnd Hj).
    + rewrite filter_cons, Hloc, IH.
      destruct (s j); [rewrite decide_True by reflexivity|rewrite decide_False by discriminate];
        reflexivity.
    + intros i. rewrite filter_cons, Hloc.
      destruct (decide (i = j)) as [->|Hne].
      * rewrite decide_True by reflexivity. now destruct (s j).
      * rewrite decide_False by congruence. reflexivity.
Qed.

Lemma filter_all {A} (P : A -> Prop) `{forall x, Decision (P x)} (l : list A) :
  Forall P l -> filter P l = l.
Proof.
  induction 1 as [|x l Hx _ IH]; [reflexivity|].
  rewrite filter_cons, decide_True by assumption. now rewrite IH.
Qed.

(** X10.  [Cluster.MultiDel] returns the keys of the shards whose
    sub-request succeeded, each as often as it was given, in some order:
    whatever the order in which the workers report, as long as each shard
    that has keys reports once.  When every sub-request succeeds these
    are all the keys. *)
Theorem MultiDel_returns_keys_of_successful_shards c sub arrival stores ks parts :
  ks <> [] ->
  Cluster.locateKeys c ks = Returned parts ->
  arrival ≡ₚ (map_to_list parts).*1 ->
  exists res err,
    Cluster.MultiDel c sub arrival stores ks = Returned (res, err) /\
    res ≡ₚ filter (fun key => key_succeeded c sub parts key = true) ks /\
    ((forall i, i ∈ arrival -> sub i (part parts i) = (true, None)) -> res ≡ₚ ks).
Proof.
  intros Hne Hparts Harr.
  destruct (locateKeys_from_parts _ _ _ _ Hparts) as (Hpart & Hsome & Hall).
  assert (forall i, i ∈ arrival <-> is_Some (parts !! i)) as Hin.
  { intros i. rewrite Harr, list_elem_of_fmap. split.
    - intros ([i' l] & -> & Hil). apply elem_of_map_to_list in Hil. now exists l.
    - intros [l Hl]. exists (i, l). split; [reflexivity|]. now apply elem_of_map_to_list. }
  assert (Forall (fun i => 0 <= i) arrival) as Hpos.
  { apply Forall_forall. intros i Hi. apply Hin, Hsome in Hi as [[? Hi]|Hi].
    - now rewrite lookup_empty in Hi.
    - apply Exists_exists in Hi as (key & _ & Hloc). apply locate_range in Hloc. lia. }
  assert (NoDup arrival) as Hnd
    by (rewrite Harr; apply NoDup_fst_map_to_list).
  assert (Forall (fun key => exists i, Cluster.locate c key = Returned i /\ i ∈ arrival) ks)
    as Hcover.
  { apply Forall_forall. intros key Hkey.
    pose proof (proj1 (Forall_forall _ _) Hall key Hkey) as (i & Hloc).
    exists i. split; [assumption|]. apply Hin, Hsome. right.
    apply Exists_exists. eauto. }
  assert (concat (map (fun i => if succeeded sub parts i then part parts i else []) arrival)
          ≡ₚ filter (fun key => key_succeeded c sub parts key = true) ks) as Hres.
  { rewrite <- (regroup_by_shard c (succeeded sub parts) arrival ks Hnd Hcover).
    apply Permutation_refl'. f_equal. apply map_ext. intros i.
    rewrite Hpart.
    assert (part (∅ : gmap Z (list bytes)) i = []) as ->
      by (unfold part; now rewrite lookup_empty).
    reflexivity. }
  exists (concat (map (fun i => if succeeded sub parts i then part parts i else []) arrival)),
         (Cluster.last_store sub parts stores).
  split; [|split].
  - unfold Cluster.MultiDel. rewrite len_nonempty, Hparts by assumption.
    rewrite gather_arrival by assumption. do 3 f_equal.
    apply map_ext. intros i. destruct (succeeded sub parts i); [apply map_id|reflexivity].
  - exact Hres.
  - intros Hok. rewrite Hres. apply Permutation_refl', filter_all.
    apply Forall_forall. intros key Hkey.
    pose proof (proj1 (Forall_forall _ _) Hcover key Hkey) as (i & Hloc & Hi).
    unfold key_succeeded, succeeded. now rewrite Hloc, (Hok i Hi).
Qed.

Lemma MultiDel_returns_keys_of_successful_shards_witness :
  exists res err,
    Cluster.MultiDel (table 3) (fun i _ => (negb (i =? 1), None)) [2; 0; 1] [] abj
      = Returned (res, err) /\
    res ≡ₚ [lit "a"; lit "j"].
Proof.
  destruct (MultiDel_returns_keys_of_successful_shards (table 3)
              (fun i _ => (negb (i =? 1), None)) [2; 0; 1] [] abj
              (<[2 := [lit "j"]]> (<[1 := [lit "b"]]> (<[0 := [lit "a"]]> ∅))))
    as (res & err & H & Hperm & _).
  - discriminate.
  - vm_compute. reflexivity.
  - vm_compute. apply perm_skip, perm_swap.
  - exists res, err. split; [exact H|]. exact Hperm.
Defined.

(* ------------------------------------------------------------------ *)
(** ** Closing a cluster *)

Lemma Close_open s : open (sock s) = true -> Close s = (None, closed s).
Proof. intros H. unfold closed, Close. now rewrite H. Qed.

Lemma Close_closed s : open (sock s) = false -> Close s = (Some ErrClosed, s).
Proof. intros H. unfold Close. now rewrite H. Qed.

Lemma Close_shards_open shards :
  Forall (fun s => open (sock s) = true) shards ->
  Close_shards shards = (None, map closed shards).
Proof.
  induction 1 as [|s shards Hs _ IH]; [reflexivity|].
  cbn [Close_shards map]. now rewrite (Close_open s Hs), IH.
Qed.

Lemma Close_shards_closed before s behind :
  Forall (fun s => open (sock s) = true) before ->
  open (sock s) = false ->
  Close_shards (before ++ s :: behind)
  = (Some ErrClosed, map closed before ++ s :: behind).
Proof.
  intros Ho Hs. induction Ho as [|s' before Hs' _ IH]; cbn [Close_shards app map].
  - now rewrite (Close_closed s Hs).
  - now rewrite (Close_open s' Hs'), IH.
Qed.

(** X11.  [Cluster.Close] closes the shards in order and stops at the
    first one whose [Close] fails.  When every shard is open it returns
    nil and every socket is closed.  When a shard is already closed it
    returns that shard's error, and the shards behind it are left as they
    were: those that were open stay open. *)
Theorem Cluster_Close_stops_at_first_error :
  (forall shards,
     Forall (fun s => open (sock s) = true) shards ->
     Cluster_Close {| Cluster.shards := shards |}
     = (None, {| Cluster.shards := map closed shards |}) /\
     Forall (fun s => open (sock s) = false) (map closed shards)) /\
  (forall before s behind,
     Forall (fun s => open (sock s) = true) before ->
     open (sock s) = false ->
     Cluster_Close {| Cluster.shards := before ++ s :: behind |}
     = (Some ErrClosed, {| Cluster.shards := map closed before ++ s :: behind |})).
Proof.
  split.
  - intros shards Ho. split.
    + unfold Cluster_Close. cbn [Cluster.shards]. now rewrite Close_shards_open.
    + apply Forall_map. eapply Forall_impl; [exact Ho|].
      intros s Hs. unfold closed, Close. now rewrite Hs.
  - intros before s behind Ho Hs. unfold Cluster_Close. cbn [Cluster.shards].
    now rewrite Close_shards_closed.
Qed.

Lemma Cluster_Close_stops_at_first_error_witness :
  Cluster_Close {| Cluster.shards := [demo_client; closed demo_client; demo_client] |}
  = (Some ErrClosed,
     {| Cluster.shards := [closed demo_client; closed demo_client; demo_client] |}).
Proof.
  exact (proj2 Cluster_Close_stops_at_first_error [demo_client] (closed demo_client)
           [demo_client] ltac:(repeat constructor) eq_refl).
Defined.

(* ------------------------------------------------------------------ *)
(** ** Empty lines before a response *)

Lemma parse_loop_skip fuel buf offset p rest :
  from buf offset = p ++ LF :: rest ->
  IndexByte p LF = -1 ->
  blank p = true ->
  parse_loop (S fuel) buf offset [] = parse_loop fuel buf (offset + len p + 1) [].
Proof.
  intros Hfrom Hp Hb. cbn [parse_loop].
  rewrite Hfrom, IndexByte_line by assumption.
  destruct (Z.eqb_spec (len p) (-1)); [pose proof (len_nonneg p); lia|].
  now rewrite (slice_line _ _ _ _ Hfrom), Hb.
Qed.

Lemma parse_loop_blanks blanks : forall fuel buf offset fs rest,
  Forall (fun l => l = [LF] \/ l = [CR; LF]) blanks ->
  0 <= offset ->
  from buf offset = concat blanks ++ concat (map frame fs) ++ LF :: rest ->
  fs <> [] ->
  (length blanks + length fs < fuel)%nat ->
  len buf <= maxInt ->
  parse_loop fuel buf offset []
  = Some (Resp fs (offset + len (concat blanks) + len (concat (map frame fs)) + 1)).
Proof.
  induction blanks as [|l blanks IH]; intros fuel buf offset fs rest Hb Ho Hfrom Hfs Hfuel Hfit.
  - cbn [concat app] in *.
    rewrite (parse_loop_wire fs fuel buf offset [] rest Ho Hfrom Hfs
               ltac:(cbn in Hfuel; lia) Hfit).
    cbn [app]. do 2 f_equal. change (len (@nil byte)) with 0. lia.
  - inversion Hb as [|? ? Hl Hb']; subst.
    destruct fuel as [|fuel]; [cbn in Hfuel; lia|].
    cbn [concat] in *. rewrite <- app_assoc in Hfrom.
    set (tail := concat blanks ++ concat (map frame fs) ++ LF :: rest) in *.
    assert (exists p, l = p ++ [LF] /\ IndexByte p LF = -1 /\ blank p = true) as (p & -> & Hp & Hbl).
    { destruct Hl as [-> | ->]; [exists []|exists [CR]]; repeat split. }
    rewrite <- app_assoc in Hfrom. cbn [app] in Hfrom.
    rewrite (parse_loop_skip fuel buf offset p tail Hfrom Hp Hbl).
    pose proof (len_nonneg p).
    assert (from buf (offset + len p + 1) = tail) as Htail.
    { replace (offset + len p + 1) with (offset + len (p ++ [LF]))
        by (rewrite len_app; unfold len; cbn [length]; lia).
      apply from_shift; [assumption|]. now rewrite <- app_assoc. }
    rewrite (IH fuel buf (offset + len p + 1) fs rest Hb' ltac:(lia) Htail Hfs
               ltac:(cbn in Hfuel; lia) Hfit).
    do 2 f_equal. rewrite !len_app. change (len [LF]) with 1. lia.
Qed.

(** X12.  Empty lines in front of a response, each a bare line feed or
    a carriage return and line feed, are skipped: [parse] returns the
    fields of the response that follows and consumes the empty lines
    together with it. *)
Theorem parse_skips_leading_empty_lines blanks fs rest :
  Forall (fun l => l = [LF] \/ l = [CR; LF]) blanks ->
  fs <> [] ->
  len (concat blanks ++ wire fs ++ rest) <= maxInt ->
  parse (concat blanks ++ wire fs ++ rest)
    = Resp fs (len (concat blanks) + len (wire fs)) /\
  retained (concat blanks ++ wire fs ++ rest)
    (parse (concat blanks ++ wire fs ++ rest)) = rest.
Proof.
  intros Hb Hfs Hfit.
  set (buf := concat blanks ++ wire fs ++ rest) in *.
  assert (from buf 0 = concat blanks ++ concat (map frame fs) ++ LF :: rest) as Hfrom.
  { unfold from, buf, wire. cbn [Z.to_nat drop]. now rewrite <- app_assoc. }
  assert (parse buf = Resp fs (len (concat blanks) + len (wire fs))) as Hp.
  { pose proof (parse_eq buf) as H.
    pose proof (parse_loop_blanks blanks (S (length blanks + length fs)) buf 0 fs rest
                  Hb ltac:(lia) Hfrom Hfs ltac:(lia) Hfit) as H'.
    rewrite (parse_loop_agree _ _ _ _ _ _ _ H H').
    unfold wire. rewrite len_app. change (len [LF]) with 1. f_equal; lia. }
  split; [assumption|]. rewrite Hp. cbn [retained]. unfold buf, from.
  rewrite app_assoc. rewrite <- len_app. unfold len. rewrite Nat2Z.id.
  apply drop_app_length.
Qed.

Lemma parse_skips_leading_empty_lines_witness :
  parse (concat [[LF]; [CR; LF]] ++ wire [lit "ok"; lit "7"] ++ lit "2\n")
  = Resp [lit "ok"; lit "7"] (len (concat [[LF]; [CR; LF]]) + len (wire [lit "ok"; lit "7"])).
Proof.
  refine (proj1 (parse_skips_leading_empty_lines [[LF]; [CR; LF]] [lit "ok"; lit "7"]
                   (lit "2\n") _ _ _)).
  - constructor; [now left|]. constructor; [now right|]. constructor.
  - discriminate.
  - vm_compute. discriminate.
Defined.

(* ------------------------------------------------------------------ *)
(** ** The second client file: what its decoder and its retry do *)

Lemma Split_nonempty s : Unlocked.Split s <> [].
Proof.
  destruct s as [|b r]; cbn; [discriminate|].
  destruct (Byte.eqb b LF); [discriminate|]. now destruct (Unlocked.Split r).
Qed.

Lemma Split_line a rest :
  Unlocked.Split (a ++ LF :: rest) = Unlocked.Split a ++ Unlocked.Split rest.
Proof.
  induction a as [|b a IH]; [reflexivity|].
  cbn [app Unlocked.Split]. destruct (Byte.eqb b LF); rewrite IH; [reflexivity|].
  pose proof (Split_nonempty a). now destruct (Unlocked.Split a).
Qed.

Lemma parse_lines_stop pre : forall i post resp,
  Unlocked.parse_lines i (pre ++ [] :: post) resp
  = Unlocked.parse_lines i (pre ++ [[]]) resp.
Proof.
  induction pre as [|v pre IH]; intros i post resp; [reflexivity|].
  cbn [app Unlocked.parse_lines]. destruct (bool_decide (v = [])); [reflexivity|apply IH].
Qed.

Lemma Unlocked_parse_first_empty_line a rest :
  Unlocked.parse (a ++ LF :: LF :: rest) = Unlocked.parse (a ++ [LF; LF]).
Proof.
  unfold Unlocked.parse. rewrite !Split_line. cbn [Unlocked.Split].
  change (Byte.eqb LF LF) with true. cbn iota.
  rewrite parse_lines_stop. symmetry. apply parse_lines_stop.
Qed.

(** X13.  In the second client file [parse] never removes anything from
    the receive buffer and stops reading at the first empty line.  So
    once a response that ends in an empty line has been returned, it
    stays in front of the buffer, and the next [recv] returns it again
    after its first read, whatever the server sent in between. *)
Theorem Unlocked_recv_repeats_first_response a chunk rs :
  0 < len (Unlocked.parse (a ++ [LF; LF])) ->
  Unlocked.recv_loop (Data (a ++ [LF; LF]) :: Data chunk :: rs) []
    = ((Some (Unlocked.parse (a ++ [LF; LF])), None), a ++ [LF; LF], Data chunk :: rs) /\
  Unlocked.recv_loop (Data chunk :: rs) (a ++ [LF; LF])
    = ((Some (Unlocked.parse (a ++ [LF; LF])), None), (a ++ [LF; LF]) ++ chunk, rs).
Proof.
  intros Hlen. split.
  - cbn [Unlocked.recv_loop app].
    destruct (Z.ltb_spec 0 (len (Unlocked.parse (a ++ [LF; LF])))); [reflexivity|lia].
  - cbn [Unlocked.recv_loop].
    replace ((a ++ [LF; LF]) ++ chunk) with (a ++ LF :: LF :: chunk)
      by (now rewrite <- app_assoc).
    rewrite Unlocked_parse_first_empty_line.
    destruct (Z.ltb_spec 0 (len (Unlocked.parse (a ++ [LF; LF])))); [reflexivity|lia].
Qed.

Lemma Unlocked_recv_repeats_first_response_witness :
  fst (fst (Unlocked.recv_loop [Data (lit "2\nok\n1\n7\n\n")] (lit "9\nnot_found" ++ [LF; LF])))
  = (Some [lit "not_found"], None).
Proof.
  refine (f_equal (fun x => fst (fst x))
            (proj2 (Unlocked_recv_repeats_first_response (lit "9\nnot_found")
                      (lit "2\nok\n1\n7\n\n") [] _))).
  vm_compute. reflexivity.
Defined.

(** X14.  Without the mutex [Do] always returns, and the retry is
    bounded: with [k] retries left it writes at most [k+1] times and
    dials at most [k] times; called with [retries = 0] that is four
    writes and three dials. *)
Theorem Unlocked_Do_is_bounded c n retries args :
  exists r c' n',
    Unlocked.Do c n retries args = Some (r, c', n') /\
    (length (sent n') <= length (sent n) + Z.to_nat (MAX_RETRIES - retries) + 1)%nat /\
    (length (dialed n') <= length (dialed n) + Z.to_nat (MAX_RETRIES - retries))%nat.
Proof. apply Unlocked_Do_fuel_returns. lia. Qed.

(** X15.  Without the mutex the retry does what it is written to do:
    when the first write fails with a transient error, the dial succeeds
    and the second write and the read succeed, [Do] returns the response
    without an error; the same request bytes were written twice and
    [c.addr] was dialled once. *)
Theorem Unlocked_Do_resends_after_reconnect c n retries args b e ws chunk rs :
  open (sock c) = true ->
  recv_buf c = [] ->
  retries < MAX_RETRIES ->
  encode args = inl b ->
  writes n = Some e :: None :: ws ->
  Contains (Error e) (lit "bad request") = false ->
  hd None (dials n) = None ->
  reads n = Data chunk :: rs ->
  0 < len (Unlocked.parse chunk) ->
  exists c' n',
    Unlocked.Do c n retries args = Some ((Some (Unlocked.parse chunk), None), c', n') /\
    sent n' = sent n ++ [b; b] /\
    dialed n' = dialed n ++ [addr c] /\
    open (sock c') = true.
Proof.
  intros Ho Hbuf Hr He Hw Hc Hd Hreads Hlen.
  unfold Unlocked.Do.
  replace (Z.to_nat (MAX_RETRIES - retries)) with (S (Z.to_nat (MAX_RETRIES - retries - 1)))
    by lia.
  cbn [Unlocked.Do_fuel].
  unfold send at 1. rewrite He. unfold Write at 1. rewrite Ho, Hw.
  rewrite Hc. destruct (Z.ltb_spec retries MAX_RETRIES); [|lia]. cbn [negb andb].
  unfold Unlocked.Reconnect, Close. rewrite Ho. cbn [snd addr set_sock].
  unfold DialTCP. cbn [dials set_writes dialed].
  destruct (dials n) as [|[e'|] d]; try discriminate;
    (cbn [set_dials];
     unfold send; rewrite He; unfold Write; cbn [sock set_sock open writes set_dials set_writes];
     unfold Unlocked.recv; cbn [sock set_sock open reads set_writes set_dials recv_buf];
     rewrite Hreads, Hbuf; cbn [Unlocked.recv_loop app];
     (destruct (Z.ltb_spec 0 (len (Unlocked.parse chunk))); [|lia]);
     rewrite bool_decide_eq_false_2 by (intros H'; now apply H');
     cbn [andb]; do 2 eexists; split; [reflexivity|];
     cbn; rewrite <- app_assoc; auto).
Qed.

Lemma Unlocked_Do_resends_after_reconnect_witness :
  exists c' n',
    Unlocked.Do demo_client
      {| writes := [Some broken_pipe; None]; reads := [Data (lit "2\nok\n\n")];
         dials := []; sent := []; dialed := [] |}
      0 (Set_args (lit "a") (lit "1"))
    = Some ((Some (Unlocked.parse (lit "2\nok\n\n")), None), c', n') /\
    sent n' = [] ++ [lit "3\nset\n1\na\n1\n1\n\n"; lit "3\nset\n1\na\n1\n1\n\n"] /\
    dialed n' = [] ++ [demo_addr] /\
    open (sock c') = true.
Proof.
  refine (Unlocked_Do_resends_after_reconnect demo_client _ 0 _ _ broken_pipe []
            (lit "2\nok\n\n") [] _ _ _ _ _ _ _ _ _);
    reflexivity.
Defined.

(* ------------------------------------------------------------------ *)
(** ** [locateKeys] of the first cluster file *)

Lemma locateKeys1_from_spec c ks : forall res,
  length res = length (Cluster.shards c) ->
  Cluster.uint16 (len (Cluster.shards c)) <> 0 ->
  exists res',
    locateKeys1_from c res ks = Returned res' /\
    length res' = length (Cluster.shards c) /\
    forall (i : nat) l,
      res !! i = Some l ->
      res' !! i
      = Some (l ++ filter (fun key => Cluster.locate c key = Returned (Z.of_nat i)) ks).
Proof.
  induction ks as [|key ks IH]; intros res Hlen Hm.
  - exists res. repeat split; [assumption|]. intros i l ->. now rewrite app_nil_r.
  - cbn [locateKeys1_from].
    destruct (Cluster.locate c key) as [loc| |] eqn:Hloc;
      try (rewrite locate_eq in Hloc;
           destruct (Z.eqb_spec (Cluster.uint16 (len (Cluster.shards c))) 0);
           [contradiction|discriminate]).
    pose proof (locate_range _ _ _ Hloc) as Hr.
    assert (Z.to_nat loc < length res)%nat as Hlt.
    { unfold Cluster.uint16, len in Hr.
      pose proof (Z.mod_le (Z.of_nat (length (Cluster.shards c))) 65536
                    ltac:(lia) ltac:(lia)). lia. }
    destruct (lookup_lt_is_Some_2 res _ Hlt) as [l0 Hl0]. rewrite Hl0.
    destruct (IH (<[Z.to_nat loc := l0 ++ [key]]> res)) as (res' & Hres & Hlen' & Hspec);
      [now rewrite length_insert|assumption|].
    exists res'. repeat split; [assumption..|].
    intros i l Hi. rewrite filter_cons, Hloc.
    destruct (decide (i = Z.to_nat loc)) as [->|Hne].
    + rewrite decide_True by (f_equal; lia).
      rewrite Hi in Hl0. injection Hl0 as ->.
      rewrite (Hspec (Z.to_nat loc) (l0 ++ [key])), <- app_assoc; [reflexivity|].
      now apply list_lookup_insert_eq.
    + rewrite decide_False by (intros [= ->]; lia).
      apply Hspec. now rewrite list_lookup_insert_ne by congruence.
Qed.

(** X16.  In the first cluster file [locateKeys] never indexes outside
    its result: on a table whose shard count is not a multiple of 65536
    it returns one entry per shard, and the entry of shard [i] is the
    list of the keys that [locate] sends to [i], in the order given. *)
Theorem locateKeys1_fills_one_entry_per_shard c ks :
  Cluster.uint16 (len (Cluster.shards c)) <> 0 ->
  exists res,
    locateKeys1 c ks = Returned res /\
    length res = length (Cluster.shards c) /\
    forall i : nat,
      (i < length (Cluster.shards c))%nat ->
      res !! i
      = Some (filter (fun key => Cluster.locate c key = Returned (Z.of_nat i)) ks).
Proof.
  intros Hm. unfold locateKeys1.
  destruct (locateKeys1_from_spec c ks (replicate (length (Cluster.shards c)) []))
    as (res & Hres & Hlen & Hspec); [apply length_replicate|assumption|].
  exists res. repeat split; [assumption..|].
  intros i Hi. apply (Hspec i []). now apply lookup_replicate_2.
Qed.

Lemma locateKeys1_fills_one_entry_per_shard_witness :
  exists res,
    locateKeys1 (table 3) [lit "a"; lit "b"; lit "j"; lit "c"] = Returned res /\
    length res = 3%nat /\
    forall i : nat,
      (i < 3)%nat ->
      res !! i
      = Some (filter (fun key => Cluster.locate (table 3) key = Returned (Z.of_nat i))
                [lit "a"; lit "b"; lit "j"; lit "c"]).
Proof.
  refine (locateKeys1_fills_one_entry_per_shard (table 3)
            [lit "a"; lit "b"; lit "j"; lit "c"] _).
  vm_compute. discriminate.
Defined.
